(** * Spotify preview demo: the hover-to-preview audio fader and the
    playlist aggregates of [src/pages/index.tsx]

    The page is a React component tree.  [Track] keeps four pieces of
    hook state ([audio], [fadeIn], [fadeOut], [interactable]) plus one
    global flag ([interactableNotified]); its handlers [play] and [stop]
    create audio elements, interval timers, a timeout and a promise whose
    callbacks are closures over the values of the render that created
    them.  [Playlist] computes the aggregates shown above the track list.

    JavaScript numbers are IEEE 754 binary64 values.  They are embedded as
    the rationals they denote, every arithmetic operation being the exact
    operation followed by rounding to the nearest binary64 value. *)

From Stdlib Require Import ZArith QArith Qround Qabs Qpower Qreduction Qcanon.
From Stdlib Require Import Lia Lqa Sorting.Sorted.
From Stdlib Require Import Ascii Floats.SpecFloat.
From Stdlib Require String.
From stdpp Require Import base option list sets gmap strings pretty sorting.

Local Open Scope Z_scope.

(* ===================================================================== *)
(** * JavaScript numbers *)
(* ===================================================================== *)

Module JsNumber.

(** A finite binary64 value, as the rational it denotes. *)
Definition number := Q.

Definition pow2 (e : Z) : Q := (2 ^ e)%Q.

(** [ilog2 q] is the exponent [k] with [2^k <= q < 2^(k+1)], for [0 < q]. *)
Definition ilog2 (q : Q) : Z :=
  let d := Z.log2 (Qnum q) - Z.log2 (Zpos (Qden q)) in
  if Qle_bool (pow2 d) q then d else d - 1.

(** Nearest integer, ties to the even one. *)
Definition rne (q : Q) : Z :=
  let f := Qfloor q in
  match Qcompare (q - inject_Z f) (1 # 2) with
  | Lt => f
  | Gt => f + 1
  | Eq => if Z.even f then f else f + 1
  end.

(** Rounding of a real result to binary64: 53 significant bits, the
    exponent not below that of the subnormals.  Results beyond the
    largest finite value (which would be [Infinity]) do not occur for
    the volumes, delays and durations handled here. *)
Definition fl (q : Q) : number :=
  match Qnum q with
  | Z0 => 0%Q
  | _ =>
      let e := Z.max (ilog2 (Qabs q) - 52) (-1074) in
      Qred (inject_Z (rne (q / pow2 e)) * pow2 e)
  end.

(** The four operators of the source. *)
Definition add (x y : number) : number := fl (x + y).
Definition sub (x y : number) : number := fl (x - y).
Definition mul (x y : number) : number := fl (x * y).
Definition div (x y : number) : number := fl (x / y).

Definition ltb (x y : number) : bool := negb (Qle_bool y x).
Definition gtb (x y : number) : bool := ltb y x.

(** A numeric literal of the source text, such as [0.05] for [5 # 100]. *)
Definition literal (n : Z) (d : positive) : number := fl (n # d).

Definition of_N (n : N) : number := fl (inject_Z (Z.of_N n)).

(** ** [Number.prototype.toFixed] *)

(** The integer [n] for which [n / 10^d - x] is as close to zero as
    possible, the larger one when there are two ([0 <= x]). *)
Definition round_fixed (d : nat) (x : Q) : Z :=
  Qfloor (x * inject_Z (10 ^ Z.of_nat d) + (1 # 2)).

Fixpoint zeros (k : nat) : string :=
  match k with
  | O => ""
  | S k' => String "0"%char (zeros k')
  end.

Definition pad_left (d : nat) (s : string) : string :=
  zeros (d - String.length s) +:+ s.

(** The digits of [n / 10^d] with exactly [d] of them after the point. *)
Definition render_fixed (neg : bool) (n : Z) (d : nat) : string :=
  (if neg then "-" else "") +:+
  pretty (n / 10 ^ Z.of_nat d) +:+
  match d with
  | O => ""
  | _ => "." +:+ pad_left d (pretty (n mod 10 ^ Z.of_nat d))
  end.

(** [x.toFixed(d)] for [x] below [10^21] in magnitude. *)
Definition toFixed (d : nat) (x : number) : string :=
  let neg := ltb x 0%Q in
  render_fixed neg (round_fixed d (Qabs x)) d.

(** ** [Number(string)] on decimal literals *)

Definition digit_of (c : ascii) : option Z :=
  let n := Z.of_nat (nat_of_ascii c) in
  if (48 <=? n) && (n <=? 57) then Some (n - 48) else None.

(** Reads [digits], [digits.digits], [digits.] or [.digits]; [acc] holds
    the digits read so far as an integer, [scale] their number once past
    the point, and [seen] tells whether there was a digit at all. *)
Fixpoint parse_digits (s : string) (acc : Z) (scale : option nat)
    (seen : bool) : option (Z * nat) :=
  match s with
  | EmptyString => if seen then Some (acc, default O scale) else None
  | String c r =>
      if Ascii.eqb c "."%char then
        match scale with
        | None => parse_digits r acc (Some O) seen
        | Some _ => None
        end
      else
        match digit_of c with
        | Some k => parse_digits r (10 * acc + k) (S <$> scale) true
        | None => None
        end
  end.

(** [None] stands for [NaN]: the text is not a decimal literal.  Texts
    with an exponent, blanks, a radix prefix or [Infinity] are not
    produced by [toFixed] below [10^21] and are not read here. *)
Definition Number (s : string) : option number :=
  match s with
  | EmptyString => Some 0%Q
  | String c r =>
      let '(neg, body) :=
        if Ascii.eqb c "-"%char then (true, r) else (false, s) in
      '(n, k) ← parse_digits body 0 None false;
      Some (fl (inject_Z (if neg then - n else n)
                / inject_Z (10 ^ Z.of_nat k)))
  end.

(** Conversion of a timer delay to the [long] the timer API takes, for
    delays below [2^31]: the fraction is dropped and a negative delay
    counts as zero. *)
Definition to_long (x : number) : Z := Z.max 0 (Qfloor x).

End JsNumber.

(* ===================================================================== *)
(** * JavaScript strings *)
(* ===================================================================== *)

Module JsString.

(** [s.includes(needle)] *)
Fixpoint includes (needle s : string) : bool :=
  String.prefix needle s ||
  match s with
  | EmptyString => false
  | String _ r => includes needle r
  end.

(** [s.endsWith(suffix)] *)
Definition endsWith (suffix s : string) : bool :=
  let n := String.length s in
  let k := String.length suffix in
  (k <=? n)%nat && String.eqb (String.substring (n - k) k s) suffix.

(** The empty string is the only falsy string. *)
Definition truthy (s : string) : bool := negb (String.eqb s "").

(** [parts.join(sep)] *)
Fixpoint join (sep : string) (parts : list string) : string :=
  match parts with
  | [] => ""
  | [p] => p
  | p :: rest => p +:+ sep +:+ join sep rest
  end.

End JsString.

(* ===================================================================== *)
(** * Data handed to the page *)
(* ===================================================================== *)

(** The fields of [../types/spotify] that the page reads.  A duration is a
    whole number of milliseconds. *)
Record Artist := { artist_name : string }.

Record TrackObject := {
  track_id : string;
  track_name : string;
  preview_url : option string;
  duration_ms : N;
  track_artists : list Artist
}.

Record SpotifyTrack := { track : TrackObject }.

Record SpotifyPlaylist := {
  playlist_name : string;
  playlist_description : string;
  tracks_total : N
}.

(* ===================================================================== *)
(** * The browser objects the [Track] component drives *)
(* ===================================================================== *)

(** Audio elements and timers are named by their position in the tables
    of the world below. *)
Abbreviation audio_ref := nat (only parsing).
Abbreviation timer_id := nat (only parsing).

(** [paused] follows the calls made on the element: [play()] clears it and
    [pause()] sets it.  Whether playback started is the outcome of the
    promise that [play()] returned. *)
Record HTMLAudioElement := {
  src : string;
  volume : JsNumber.number;
  paused : bool
}.

(** The three closures handed to the timer API.  Each carries what it
    captured: the audio element, and the value that the state variable
    [fadeIn] (or [fadeOut]) had in the render that created the closure. *)
Inductive timer_callback :=
| FadeInTick (newAudio : audio_ref) (fadeIn : option timer_id)
| FadeOutTick (audio : audio_ref) (fadeOut : option timer_id)
| PauseAudio (audio : audio_ref).

Record timer := {
  handler : timer_callback;
  due : Z;
  period : option Z;
  active : bool
}.

Inductive toast :=
| toast_plain (message : string)
| toast_success (message : string)
| toast_error (message : string).

(** The value a promise is rejected with. *)
Inductive rejection :=
| ErrorObject (message : string)
| StringValue (s : string).

Inductive outcome :=
| Fulfilled
| Rejected (error : rejection).

(** The promise of one [newAudio.play()] call with what its [then] and
    [catch] closures captured: the component whose [setInteractable] they
    call and the [interactableNotified] value of the render of the call. *)
Record play_promise := {
  p_audio : audio_ref;
  p_track : nat;
  p_interactableNotified : bool;
  p_outcome : option outcome
}.

(** Hook state of one [Track] component. *)
Record TrackState := {
  audio : option audio_ref;
  fadeIn : option timer_id;
  fadeOut : option timer_id;
  interactable : bool
}.

Record World := {
  audios : list HTMLAudioElement;
  timers : list timer;
  promises : list play_promise;
  toasts : list toast;
  hooks : list TrackState;
  interactableNotified : bool;
  now : Z
}.

Definition with_audios (f : list HTMLAudioElement → list HTMLAudioElement)
    (w : World) : World :=
  {| audios := f (audios w); timers := timers w; promises := promises w;
     toasts := toasts w; hooks := hooks w;
     interactableNotified := interactableNotified w; now := now w |}.

Definition with_timers (f : list timer → list timer) (w : World) : World :=
  {| audios := audios w; timers := f (timers w); promises := promises w;
     toasts := toasts w; hooks := hooks w;
     interactableNotified := interactableNotified w; now := now w |}.

Definition with_promises (f : list play_promise → list play_promise)
    (w : World) : World :=
  {| audios := audios w; timers := timers w; promises := f (promises w);
     toasts := toasts w; hooks := hooks w;
     interactableNotified := interactableNotified w; now := now w |}.

Definition with_toasts (f : list toast → list toast) (w : World) : World :=
  {| audios := audios w; timers := timers w; promises := promises w;
     toasts := f (toasts w); hooks := hooks w;
     interactableNotified := interactableNotified w; now := now w |}.

Definition with_hooks (f : list TrackState → list TrackState) (w : World)
    : World :=
  {| audios := audios w; timers := timers w; promises := promises w;
     toasts := toasts w; hooks := f (hooks w);
     interactableNotified := interactableNotified w; now := now w |}.

Definition with_interactableNotified (b : bool) (w : World) : World :=
  {| audios := audios w; timers := timers w; promises := promises w;
     toasts := toasts w; hooks := hooks w;
     interactableNotified := b; now := now w |}.

Definition with_now (t : Z) (w : World) : World :=
  {| audios := audios w; timers := timers w; promises := promises w;
     toasts := toasts w; hooks := hooks w;
     interactableNotified := interactableNotified w; now := t |}.

(** ** Audio elements *)

(** [new Audio(url)]: a paused element at full volume. *)
Definition new_Audio (url : string) : HTMLAudioElement :=
  {| src := url; volume := 1%Q; paused := true |}.

(** [el.volume = v].  The setter throws outside [0, 1], which ends the
    running handler with the element unchanged. *)
Definition set_volume (a : audio_ref) (v : JsNumber.number) (w : World)
    : World :=
  if Qle_bool 0 v && Qle_bool v 1 then
    with_audios (alter (λ el, {| src := src el; volume := v;
                                 paused := paused el |}) a) w
  else w.

Definition set_paused (a : audio_ref) (b : bool) (w : World) : World :=
  with_audios (alter (λ el, {| src := src el; volume := volume el;
                               paused := b |}) a) w.

(** ** Timers *)

(** [setInterval(cb, ms)] and [setTimeout(cb, ms)]: the new handle is the
    position of the timer in the table. *)
Definition setInterval (cb : timer_callback) (ms : Z) (w : World) : World :=
  with_timers (λ ts, ts ++ [{| handler := cb; due := now w + ms;
                               period := Some ms; active := true |}]) w.

Definition setTimeout (cb : timer_callback) (ms : JsNumber.number)
    (w : World) : World :=
  with_timers (λ ts, ts ++ [{| handler := cb;
                               due := now w + JsNumber.to_long ms;
                               period := None; active := true |}]) w.

(** [clearInterval(h)]; an unknown handle is ignored. *)
Definition clearInterval (h : timer_id) (w : World) : World :=
  with_timers (alter (λ t, {| handler := handler t; due := due t;
                              period := period t; active := false |}) h) w.

(** ** Hook state *)

Definition setAudio (i : nat) (a : option audio_ref) (w : World) : World :=
  with_hooks (alter (λ st, {| audio := a; fadeIn := fadeIn st;
                              fadeOut := fadeOut st;
                              interactable := interactable st |}) i) w.

Definition setFadeIn (i : nat) (h : option timer_id) (w : World) : World :=
  with_hooks (alter (λ st, {| audio := audio st; fadeIn := h;
                              fadeOut := fadeOut st;
                              interactable := interactable st |}) i) w.

Definition setFadeOut (i : nat) (h : option timer_id) (w : World) : World :=
  with_hooks (alter (λ st, {| audio := audio st; fadeIn := fadeIn st;
                              fadeOut := h;
                              interactable := interactable st |}) i) w.

Definition setInteractable (i : nat) (b : bool) (w : World) : World :=
  with_hooks (alter (λ st, {| audio := audio st; fadeIn := fadeIn st;
                              fadeOut := fadeOut st;
                              interactable := b |}) i) w.

Definition add_toast (t : toast) (w : World) : World :=
  with_toasts (λ ts, ts ++ [t]) w.

(* ===================================================================== *)
(** * The [Track] component *)
(* ===================================================================== *)

Definition c_0_05 : JsNumber.number := JsNumber.literal 5 100.
Definition c_100 : JsNumber.number := JsNumber.literal 100 1.

(** [Number((v + 0.05).toFixed(2))] and [Number((v - 0.05).toFixed(2))] *)
Definition louder (v : JsNumber.number) : option JsNumber.number :=
  JsNumber.Number (JsNumber.toFixed 2 (JsNumber.add v c_0_05)).

Definition quieter (v : JsNumber.number) : option JsNumber.number :=
  JsNumber.Number (JsNumber.toFixed 2 (JsNumber.sub v c_0_05)).

(** The bodies of the three timer closures. *)
Definition run_callback (cb : timer_callback) (w : World) : World :=
  match cb with
  | FadeInTick newAudio fadeIn =>
      match audios w !! newAudio with
      | Some el =>
          if JsNumber.ltb (volume el) 1%Q then
            match louder (volume el) with
            | Some v => set_volume newAudio v w
            | None => w
            end
          else
            match fadeIn with
            | Some h => clearInterval h w
            | None => w
            end
      | None => w
      end
  | FadeOutTick audio fadeOut =>
      match audios w !! audio with
      | Some el =>
          if JsNumber.gtb (volume el) 0%Q then
            match quieter (volume el) with
            | Some v => set_volume audio v w
            | None => w
            end
          else
            match fadeOut with
            | Some h => clearInterval h w
            | None => w
            end
      | None => w
      end
  | PauseAudio audio => set_paused audio true w
  end.

(** [!track.preview_url] is false for a non-empty string only. *)
Definition has_preview (t : TrackObject) : option string :=
  match preview_url t with
  | Some url => if JsString.truthy url then Some url else None
  | None => None
  end.

(** [play], as the closure of the current render of component [i]. *)
Definition play (t : TrackObject) (i : nat) (w : World) : World :=
  match hooks w !! i with
  | None => w
  | Some st =>
      match audio st, has_preview t with
      | None, Some url =>
          let newAudio := length (audios w) in
          let w := with_audios (λ l, l ++ [new_Audio url]) w in
          let w := set_volume newAudio 0%Q w in
          let w := set_paused newAudio false w in
          let w := with_promises
                     (λ l, l ++ [{| p_audio := newAudio; p_track := i;
                                    p_interactableNotified :=
                                      interactableNotified w;
                                    p_outcome := None |}]) w in
          let timer := length (timers w) in
          let w := setInterval (FadeInTick newAudio (fadeIn st)) 100 w in
          let w := setFadeIn i (Some timer) w in
          setAudio i (Some newAudio) w
      | _, _ => w
      end
  end.

(** [(originalVolume / 0.05) * 100] *)
Definition pause_delay (originalVolume : JsNumber.number) : JsNumber.number :=
  JsNumber.mul (JsNumber.div originalVolume c_0_05) c_100.

(** [stop], as the closure of the current render of component [i]. *)
Definition stop (i : nat) (w : World) : World :=
  match hooks w !! i with
  | None => w
  | Some st =>
      match audio st with
      | None => w
      | Some a =>
          match audios w !! a with
          | None => w
          | Some el =>
              let originalVolume := volume el in
              let w := setAudio i None w in
              let w := match fadeIn st with
                       | Some h => clearInterval h w
                       | None => w
                       end in
              let out := length (timers w) in
              let w := setInterval (FadeOutTick a (fadeOut st)) 100 w in
              let w := setFadeOut i (Some out) w in
              setTimeout (PauseAudio a) (pause_delay originalVolume) w
          end
      end
  end.

(** ** The [then] and [catch] closures of [play] *)

Definition msg_good_to_go : string := "Nice! You’re good to go.".
Definition msg_click_anywhere : string :=
  "Please click anywhere on the page to preview tracks on hover.".
Definition phrase_no_interaction : string :=
  "user didn't interact with the document first".
Definition phrase_interrupted : string := "interrupted by a call to pause()".

Definition on_fulfilled (p : play_promise) (w : World) : World :=
  let w := setInteractable (p_track p) true w in
  if p_interactableNotified p then
    add_toast (toast_success msg_good_to_go)
      (with_interactableNotified false w)
  else w.

Definition message_of (error : rejection) : string :=
  match error with
  | ErrorObject message => message
  | StringValue s => s
  end.

Definition on_rejected (p : play_promise) (error : rejection) (w : World)
    : World :=
  let message := message_of error in
  if JsString.includes phrase_no_interaction message then
    if negb (p_interactableNotified p) then
      with_interactableNotified true
        (add_toast (toast_plain msg_click_anywhere) w)
    else w
  else if negb (JsString.includes phrase_interrupted message) then
    add_toast (toast_error message) w
  else w.

(** Settling promise [k]; a promise settles once. *)
Definition settle (k : nat) (o : outcome) (w : World) : option World :=
  match promises w !! k with
  | Some p =>
      match p_outcome p with
      | Some _ => None
      | None =>
          let w := with_promises
                     (alter (λ q, {| p_audio := p_audio q;
                                     p_track := p_track q;
                                     p_interactableNotified :=
                                       p_interactableNotified q;
                                     p_outcome := Some o |}) k) w in
          Some match o with
               | Fulfilled => on_fulfilled p w
               | Rejected error => on_rejected p error w
               end
      end
  | None => None
  end.

(* ===================================================================== *)
(** * The event loop *)
(* ===================================================================== *)

(** Timer [h] runs: the clock reaches its due time, an interval is set
    for its next period and a timeout is spent, then the closure runs. *)
Definition fire (h : timer_id) (w : World) : World :=
  match timers w !! h with
  | Some t =>
      if active t then
        let w := with_now (Z.max (now w) (due t)) w in
        let w := with_timers
                   (<[h := {| handler := handler t;
                              due := match period t with
                                     | Some p => due t + p
                                     | None => due t
                                     end;
                              period := period t;
                              active := bool_decide (is_Some (period t)) |}]>)
                   w in
        run_callback (handler t) w
      else w
  | None => w
  end.

(** The active timer that is due first, the older one on a tie. *)
Fixpoint earliest (ts : list timer) (h : nat) (best : option (nat * Z))
    : option (nat * Z) :=
  match ts with
  | [] => best
  | t :: rest =>
      earliest rest (S h)
        (if active t then
           match best with
           | Some (_, d) => if due t <? d then Some (h, due t) else best
           | None => Some (h, due t)
           end
         else best)
  end.

Definition next_timer (w : World) : option timer_id :=
  fst <$> earliest (timers w) O None.

(** A user event at time [at_ms] is delivered when the clock has not
    passed it and no active timer is due before it. *)
Definition deliverable (at_ms : Z) (w : World) : bool :=
  (now w <=? at_ms) &&
  forallb (λ t, negb (active t) || (at_ms <=? due t)) (timers w).

Inductive event :=
| MouseOver (at_ms : Z) (i : nat)
| Focus (at_ms : Z) (i : nat)
| MouseLeave (at_ms : Z) (i : nat)
| Blur (at_ms : Z) (i : nat)
| Settle (k : nat) (o : outcome)
| Fire.

Definition hover (tracks : list SpotifyTrack) (at_ms : Z) (i : nat)
    (w : World) : option World :=
  if deliverable at_ms w then
    match tracks !! i with
    | Some t => Some (play (track t) i (with_now at_ms w))
    | None => None
    end
  else None.

Definition leave (at_ms : Z) (i : nat) (w : World) : option World :=
  if deliverable at_ms w then Some (stop i (with_now at_ms w)) else None.

(** One step of the page; [None] when the event cannot happen now. *)
Definition exec (tracks : list SpotifyTrack) (e : event) (w : World)
    : option World :=
  match e with
  | MouseOver at_ms i | Focus at_ms i => hover tracks at_ms i w
  | MouseLeave at_ms i | Blur at_ms i => leave at_ms i w
  | Settle k o => settle k o w
  | Fire => (λ h, fire h w) <$> next_timer w
  end.

Fixpoint run (tracks : list SpotifyTrack) (es : list event) (w : World)
    : option World :=
  match es with
  | [] => Some w
  | e :: rest => exec tracks e w ≫= run tracks rest
  end.

(** The page after its first render: one hook state per track. *)
Definition initial_state : TrackState :=
  {| audio := None; fadeIn := None; fadeOut := None; interactable := false |}.

Definition mount (tracks : list SpotifyTrack) : World :=
  {| audios := []; timers := []; promises := []; toasts := [];
     hooks := (λ _, initial_state) <$> tracks;
     interactableNotified := false; now := 0 |}.

Definition reachable (tracks : list SpotifyTrack) (w : World) : Prop :=
  ∃ es, run tracks es (mount tracks) = Some w.

(** An element that can be heard: its [play()] promise was fulfilled, it
    is not paused and its volume is above zero. *)
Definition audible (w : World) (a : audio_ref) : bool :=
  match audios w !! a with
  | Some el =>
      negb (paused el) && JsNumber.gtb (volume el) 0%Q &&
      existsb (λ p, bool_decide (p_audio p = a) &&
                    match p_outcome p with
                    | Some Fulfilled => true
                    | _ => false
                    end) (promises w)
  | None => false
  end.

(** What [Track] returns for one row, apart from styling: the fragment
    key, whether a rule precedes the row ([Boolean(index)]), whether the
    progress bar is present, and the title line. *)
Record row := {
  key : string;
  rule : bool;
  bar : bool;
  title : string
}.

Definition Track (index : nat) (t : SpotifyTrack) : row :=
  {| key := track_id (track t);
     rule := bool_decide (index ≠ O);
     bar := bool_decide (is_Some (has_preview (track t)));
     title := track_name (track t) |}.


(* ===================================================================== *)
(** * The [Playlist] component *)
(* ===================================================================== *)

(** [tracks.reduce((acc, track) => acc + track.track.duration_ms, 0)] *)
Definition total_duration (tracks : list SpotifyTrack) : JsNumber.number :=
  fold_left (λ acc t, JsNumber.add acc (JsNumber.of_N (duration_ms (track t))))
    tracks 0%Q.

Definition duration (tracks : list SpotifyTrack) : string :=
  JsNumber.toFixed 1
    (JsNumber.div (total_duration tracks) (JsNumber.literal 3600000 1)).

(** An entry of the [artists] array. *)
Record ArtistCount := { name : string; count : nat }.

(** The body of the inner [forEach]: the first entry with the artist's
    name is counted up in place; a name without entry is pushed when it
    is truthy. *)
Definition visit (artists : list ArtistCount) (artist : Artist)
    : list ArtistCount :=
  match list_find (λ e, name e = artist_name artist) artists with
  | Some (i, existing) =>
      <[i := {| name := name existing; count := count existing + 1 |}]>
        artists
  | None =>
      if JsString.truthy (artist_name artist) then
        artists ++ [{| name := artist_name artist; count := 1 |}]
      else artists
  end.

Definition artists (tracks : list SpotifyTrack) : list ArtistCount :=
  fold_left (λ acc t, fold_left visit (track_artists (track t)) acc)
    tracks [].

(** [new Set(artists.map((artist) => artist.name))] *)
Definition uniqueArtists (tracks : list SpotifyTrack) : gset string :=
  list_to_set (name <$> artists tracks).

(** The comparator handed to [sort]. *)
Definition by_count (artist1 artist2 : ArtistCount) : Z :=
  if (count artist1 <? count artist2)%nat (* artist2.count > artist1.count *)
  then 1 else -1.

(** [artists.sort(comparefn)] is the engine's [Array.prototype.sort].
    The comparator above never answers zero and answers -1 both ways on
    equal counts, so it is not a consistent comparator and ECMAScript
    leaves the order of the result to the implementation.  The sort is
    therefore a parameter of the model. *)
Abbreviation sort_function :=
  ((ArtistCount → ArtistCount → Z) → list ArtistCount → list ArtistCount)
  (only parsing).

Section Engine.

Variable sort : sort_function.

(** [artists.sort(...).slice(0, 5).map((artist) => artist.name)] *)
Definition topArtists (tracks : list SpotifyTrack) : list string :=
  name <$> take 5 (sort by_count (artists tracks)).

End Engine.

(** What the theorems ask of the engine's sort under [by_count]: the
    result holds the elements of the array, and no element comes before
    one that the comparator, asked about the two in the order of the
    result, sends first. *)
Definition sorts_by_count (sort : sort_function) : Prop :=
  (∀ l, sort by_count l ≡ₚ l) ∧
  (∀ l i j a b, sort by_count l !! i = Some a → sort by_count l !! j = Some b →
     (i < j)%nat → by_count a b <= 0).

(** One sort that does so, an insertion sort: each element in turn moves
    left past the elements that the comparator puts after it.  It keeps
    elements that the comparator does not tell apart in their order. *)
Fixpoint sift {A} (comparefn : A → A → Z) (element : A) (before : list A)
    : list A :=
  match before with
  | [] => [element]
  | tmp :: rest =>
      if 0 <? comparefn tmp element then tmp :: sift comparefn element rest
      else element :: tmp :: rest
  end.

(** [before] holds the sorted part, its last element first. *)
Definition insertion_sort {A} (comparefn : A → A → Z) (l : list A) : list A :=
  rev (fold_left (λ before element, sift comparefn element before) l []).

(** Another one, which turns the array round first, as a sort does that
    takes a run of elements each reported to go before its predecessor for
    a descending run: elements that the comparator does not tell apart
    come out in reverse order. *)
Definition reversing_sort {A} (comparefn : A → A → Z) (l : list A) : list A :=
  insertion_sort comparefn (reverse l).

Definition description (data : SpotifyPlaylist) : string :=
  if JsString.endsWith "." (playlist_description data)
  then playlist_description data
  else playlist_description data +:+ ".".

(** The three stats, in the order of the source. *)
Definition stats (data : SpotifyPlaylist) (tracks : list SpotifyTrack)
    : list string :=
  [ duration tracks +:+ " hours";
    pretty (tracks_total data) +:+ " tracks";
    pretty (size (uniqueArtists tracks)) +:+ " artists" ].

Record page := {
  heading : string;
  description_span : string;
  featuring_span : string;
  stats_line : string;
  rows : list row
}.

Section Rendering.

(** The engine's sort and the two library calls of the render: [decode]
    of [he] and [formatter.format] of [Intl.ListFormat]. *)
Variable sort : sort_function.
Variable decode : string → string.
Variable format : list string → string.

Definition Playlist (data : SpotifyPlaylist) (tracks : list SpotifyTrack)
    : page :=
  {| heading := playlist_name data;
     description_span := decode (description data) +:+ " ";
     featuring_span :=
       "Featuring " +:+ format (topArtists sort tracks) +:+ ".";
     stats_line := JsString.join " · " (stats data tracks);
     rows := imap Track tracks |}.

End Rendering.

(* ===================================================================== *)
(** * The properties, in the terms of the specification *)
(* ===================================================================== *)

(** All artist names of all tracks, in order of appearance. *)
Definition credited_names (tracks : list SpotifyTrack) : list string :=
  tracks ≫= λ t, artist_name <$> track_artists (track t).

(** The number of times a name is credited. *)
Definition appearances (tracks : list SpotifyTrack) (n : string) : nat :=
  length (filter (λ m, m = n) (credited_names tracks)).

(** The number of tracks that credit a name. *)
Definition track_appearances (tracks : list SpotifyTrack) (n : string) : nat :=
  length (filter (λ t, n ∈ artist_name <$> track_artists (track t)) tracks).

(** A list of names [top] taken from [names] by rank: it is in order of
    non-increasing rank, and no name left out ranks above a listed one. *)
Definition ranked (rank : string → nat) (names top : list string) : Prop :=
  (∀ i j a b, top !! i = Some a → top !! j = Some b → (i ≤ j)%nat →
     (rank b ≤ rank a)%nat) ∧
  (∀ a b, a ∈ top → b ∈ names → b ∉ top → (rank b ≤ rank a)%nat).

(** The sum of the durations, as an integer. *)
Definition duration_sum (tracks : list SpotifyTrack) : Z :=
  foldr (λ t acc, Z.of_N (duration_ms (track t)) + acc) 0 tracks.

(** [n] tenths is a value with one decimal nearest to [q]. *)
Definition nearest_tenth (q : Q) (n : Z) : Prop :=
  (Qabs (10 * q - inject_Z n) <= 1 # 2)%Q.

(** The volume after [k] steps of 0.05, as the literal [0.05 * k] read
    with two decimals. *)
Definition step_volume (k : nat) : JsNumber.number :=
  JsNumber.literal (5 * Z.of_nat k) 100.

(** The toast log never shows the instruction twice without a success
    toast in between.  [armed] tells whether an instruction toast is still
    waiting for its success toast. *)
Fixpoint spaced (armed : bool) (ts : list toast) : bool :=
  match ts with
  | [] => true
  | toast_plain _ :: rest => negb armed && spaced true rest
  | toast_success _ :: rest => spaced false rest
  | toast_error _ :: rest => spaced armed rest
  end.

(** Whether [error] carries the message of a [play()] that the browser
    did not allow. *)
Definition not_allowed (error : rejection) : bool :=
  JsString.includes phrase_no_interaction (message_of error).

(** A run in which every rejection of a [play()] that was not allowed
    finds the global flag at the value its closure captured. *)
Fixpoint blocked_in_step (tracks : list SpotifyTrack) (es : list event)
    (w : World) : bool :=
  match es with
  | [] => true
  | e :: rest =>
      match e with
      | Settle k (Rejected error) =>
          match promises w !! k with
          | Some p =>
              negb (not_allowed error) ||
              bool_decide (p_interactableNotified p = interactableNotified w)
          | None => true
          end
      | _ => true
      end &&
      match exec tracks e w with
      | Some w' => blocked_in_step tracks rest w'
      | None => true
      end
  end.

(** The promise made by the step from [w] to [w'], if it made one. *)
Definition made (w w' : World) : option nat :=
  if (length (promises w) <? length (promises w'))%nat
  then Some (length (promises w)) else None.

(** A run in which a [play()] that is not allowed is rejected at once:
    [play()] returns a promise that is already rejected, so its [catch]
    closure runs before any other handler.  [last] is the promise made by
    the previous event. *)
Fixpoint blocked_at_once (tracks : list SpotifyTrack) (last : option nat)
    (es : list event) (w : World) : bool :=
  match es with
  | [] => true
  | e :: rest =>
      match e with
      | Settle k (Rejected error) =>
          negb (not_allowed error) || bool_decide (last = Some k)
      | _ => true
      end &&
      match exec tracks e w with
      | Some w' => blocked_at_once tracks (made w w') rest w'
      | None => true
      end
  end.

(** Whether an instruction toast is still waiting for its success toast
    once the log [ts] has been shown. *)
Fixpoint armed_after (armed : bool) (ts : list toast) : bool :=
  match ts with
  | [] => armed
  | toast_plain _ :: rest => armed_after true rest
  | toast_success _ :: rest => armed_after false rest
  | toast_error _ :: rest => armed_after armed rest
  end.

(** The number of fade-out steps that bring volume [v] to zero. *)
Fixpoint ticks_to_silence (fuel : nat) (v : JsNumber.number) : option nat :=
  if JsNumber.gtb v 0%Q then
    match fuel with
    | O => None
    | S fuel' => v' ← quieter v; S <$> ticks_to_silence fuel' v'
    end
  else Some O.

(* ===================================================================== *)
(** * Invariants *)
(* ===================================================================== *)

(** The number of times [n] occurs among the names visited so far. *)
Definition credits (n : string) (seen : list string) : nat :=
  length (filter (λ m, m = n) seen).

(** What the [artists] array holds once the names [seen] were visited:
    one entry per non-empty name, with the number of its credits. *)
Record tallied (acc : list ArtistCount) (seen : list string) : Prop := {
  tallied_nodup : NoDup (name <$> acc);
  tallied_entry e : e ∈ acc →
    name e ≠ "" ∧ name e ∈ seen ∧ count e = credits (name e) seen;
  tallied_all n : n ∈ seen → n ≠ "" → n ∈ name <$> acc
}.

(** Orders on the entries of [artists]. *)
Definition fewer (a b : ArtistCount) : Prop := (count a ≤ count b)%nat.
Definition more (a b : ArtistCount) : Prop := (count b ≤ count a)%nat.

(** The toast log is well spaced and the global flag tells whether an
    instruction toast is waiting for its success toast. *)
Definition flag_tracks_log (w : World) : Prop :=
  spaced false (toasts w) = true ∧
  armed_after false (toasts w) = interactableNotified w.

(** Every timer handle kept in hook state names a timer of the table. *)
Definition handles_in_range (w : World) : Prop :=
  ∀ i st, hooks w !! i = Some st →
    (∀ h, fadeIn st = Some h → (h < length (timers w))%nat) ∧
    (∀ h, fadeOut st = Some h → (h < length (timers w))%nat).

(* ===================================================================== *)
(** * Sample data *)
(* ===================================================================== *)

Definition sample_track (n : string) (ms : N) (names : list string)
    : SpotifyTrack :=
  {| track := {| track_id := n; track_name := n;
                 preview_url := Some ("https://p.scdn.co/mp3-preview/" +:+ n);
                 duration_ms := ms;
                 track_artists := (λ a, {| artist_name := a |}) <$> names |} |}.

Definition sample_tracks : list SpotifyTrack :=
  [ sample_track "one" 180000 ["Ada"; "Bo"];
    sample_track "two" 360000 ["Bo"] ].

Definition sample_playlist : SpotifyPlaylist :=
  {| playlist_name := "Mix"; playlist_description := "Songs &amp; more";
     tracks_total := 2 |}.

(** A playlist whose metadata counts tracks that were not handed over. *)
Definition short_playlist : SpotifyPlaylist :=
  {| playlist_name := "Mix"; playlist_description := "Songs.";
     tracks_total := 2 |}.

(** Tracks that credit an artist without a name. *)
Definition unnamed_tracks : list SpotifyTrack :=
  [ sample_track "one" 180000 [""];
    sample_track "two" 180000 [""; "Ada"] ].

Definition blocked : outcome :=
  Rejected (ErrorObject
    "play() failed because the user didn't interact with the document first.").

(** A visit during which playback is blocked at first and then allowed. *)
Definition sample_session : list event :=
  [ Focus 0 0; Settle 0 blocked; MouseOver 5 1; Settle 1 blocked;
    Blur 6 0; Fire; Focus 7 0; Settle 2 Fulfilled ].

(** A full fade-in on the first track, the pointer leaving at 2050 ms
    and coming back at 2100 ms, then one step of each running ramp. *)
Definition rehover_session : list event :=
  [MouseOver 0 0; Settle 0 Fulfilled] ++ replicate 20 Fire ++
  [MouseLeave 2050 0; MouseOver 2100 0; Settle 1 Fulfilled; Fire; Fire].

(** The pointer stays for two and a half seconds. *)
Definition long_hover_session : list event :=
  [MouseOver 0 0; Settle 0 Fulfilled] ++ replicate 25 Fire.

(** The pointer leaves after three steps of the fade-in, at volume 0.15;
    the next three timers run. *)
Definition short_hover_session : list event :=
  [MouseOver 0 0; Settle 0 Fulfilled; Fire; Fire; Fire; MouseLeave 350 0;
   Fire; Fire; Fire].

(** Six artists, credited six times down to once. *)
Definition crowded_tracks : list SpotifyTrack :=
  [ sample_track "one" 200000 ["Ada"; "Bo"; "Cy"; "Di"; "Ed"; "Flo"];
    sample_track "two" 200000 ["Ada"; "Bo"; "Cy"; "Di"; "Ed"];
    sample_track "three" 200000 ["Ada"; "Bo"; "Cy"; "Di"];
    sample_track "four" 200000 ["Ada"; "Bo"; "Cy"];
    sample_track "five" 200000 ["Ada"; "Bo"];
    sample_track "six" 200000 ["Ada"] ].

(** Six artists credited once each. *)
Definition level_tracks : list SpotifyTrack :=
  [ sample_track "one" 200000 ["Ada"; "Bo"; "Cy"];
    sample_track "two" 200000 ["Di"; "Ed"; "Flo"] ].

(** A track that credits one artist three times. *)
Definition repeated_credit_tracks : list SpotifyTrack :=
  [ sample_track "one" 180000 ["Ada"; "Ada"; "Ada"; "Bo"];
    sample_track "two" 180000 ["Bo"] ].

(** The page while the first track is being previewed. *)
Definition hovering : World :=
  default (mount sample_tracks)
    (run sample_tracks [MouseOver 0 0; Settle 0 Fulfilled]
       (mount sample_tracks)).

(* ===================================================================== *)
(** * Invariants of the running page *)
(* ===================================================================== *)

(** The volumes 0, 0.05, ..., 1 of the two ramps. *)
Definition on_the_ramp (v : JsNumber.number) : Prop :=
  ∃ k, (k ≤ 20)%nat ∧ v = step_volume k.

(** Every audio element has a [play()] promise, that of the row whose
    [play] made it, and its source is the preview of that row's track; the
    element a row holds is one it made. *)
Definition own_previews (tracks : list SpotifyTrack) (w : World) : Prop :=
  length (promises w) = length (audios w) ∧
  (∀ k p el, promises w !! k = Some p → audios w !! k = Some el →
     ∃ t, tracks !! p_track p = Some t ∧
          has_preview (track t) = Some (src el)) ∧
  (∀ i st a, hooks w !! i = Some st → audio st = Some a →
     ∃ p, promises w !! a = Some p ∧ p_track p = i).

(** The promises that settled so far. *)
Definition settled (ps : list play_promise) : nat :=
  length (filter (λ p, is_Some (p_outcome p)) ps).

(** Whether the instruction toast was shown. *)
Definition instructed (ts : list toast) : bool :=
  existsb (λ t, match t with toast_plain _ => true | _ => false end) ts.

(** No success toast comes before the first instruction toast; [seen]
    tells whether an instruction toast came earlier. *)
Fixpoint heralded (seen : bool) (ts : list toast) : bool :=
  match ts with
  | [] => true
  | toast_plain _ :: rest => heralded true rest
  | toast_success _ :: rest => seen && heralded seen rest
  | toast_error _ :: rest => heralded seen rest
  end.

(** Component [i] had a [play()] promise fulfilled. *)
Definition fulfilled_for (w : World) (i : nat) : Prop :=
  ∃ k p, promises w !! k = Some p ∧ p_track p = i ∧
         p_outcome p = Some Fulfilled.

(** The promise of [play()] number [k] belongs to element [k] and to a
    mounted component. *)
Definition promises_match (w : World) : Prop :=
  length (promises w) = length (audios w) ∧
  ∀ k p, promises w !! k = Some p →
    p_audio p = k ∧ (p_track p < length (hooks w))%nat.

(** [interactable] is set exactly for the components that had a promise
    fulfilled. *)
Definition set_when_fulfilled (w : World) : Prop :=
  ∀ i st, hooks w !! i = Some st →
    (interactable st = true ↔ fulfilled_for w i).

(** The flag, and every snapshot of it held by a promise, is set only
    after the instruction toast. *)
Definition instruction_known (w : World) : Prop :=
  heralded false (toasts w) = true ∧
  (interactableNotified w = true → instructed (toasts w) = true) ∧
  (∀ k p, promises w !! k = Some p → p_interactableNotified p = true →
     instructed (toasts w) = true).

(** The first hover, allowed by the browser, and three steps of the
    fade-in. *)
Definition warm_up : list event :=
  [MouseOver 0 0; Settle 0 Fulfilled; Fire; Fire; Fire].

(** The page after [warm_up]: the first track plays at volume 0.15. *)
Definition warm : World :=
  default (mount sample_tracks)
    (run sample_tracks warm_up (mount sample_tracks)).

(** The element of the first track of [sample_tracks] at volume [v]. *)
Definition first_element (v : JsNumber.number) : HTMLAudioElement :=
  {| src := "https://p.scdn.co/mp3-preview/one"; volume := v;
     paused := false |}.

(** The state of the first component while its track is previewed. *)
Definition previewing : TrackState :=
  {| audio := Some O; fadeIn := Some O; fadeOut := None;
     interactable := true |}.

(* ===================================================================== *)
(** * The binary64 operations of the standard library, for comparison *)
(* ===================================================================== *)

Definition binary64_of_Z (z : Z) : spec_float :=
  binary_normalize 53 1024 z 0 false.

Definition binary64_of_decimal (n : Z) (d : positive) : spec_float :=
  SFdiv 53 1024 (binary64_of_Z n) (binary64_of_Z (Zpos d)).

Definition Q_of_binary64 (f : spec_float) : option Q :=
  match f with
  | S754_zero _ => Some 0%Q
  | S754_finite s m e =>
      Some (Qred ((if s then -1 else 1) * inject_Z (Zpos m) * JsNumber.pow2 e))
  | _ => None
  end.

Definition same_value (f : spec_float) (x : JsNumber.number) : bool :=
  match Q_of_binary64 f with
  | Some q => Qeq_bool q x
  | None => false
  end.

(** For the volume of step [k]: the literal, the sum and difference with
    [0.05], and the delay computed from it. *)
Definition binary64_agrees (k : nat) : bool :=
  let v := binary64_of_decimal (5 * Z.of_nat k) 100 in
  let c := binary64_of_decimal 5 100 in
  same_value v (step_volume k) &&
  same_value (SFadd 53 1024 v c) (JsNumber.add (step_volume k) c_0_05) &&
  same_value (SFsub 53 1024 v c) (JsNumber.sub (step_volume k) c_0_05) &&
  same_value (SFmul 53 1024 (SFdiv 53 1024 v c) (binary64_of_Z 100))
             (pause_delay (step_volume k)).

(* ===================================================================== *)
(** * Facts about binary64 rounding *)
(* ===================================================================== *)

Module JsNumberFacts.
Import JsNumber.

Lemma pow2_pos e : (0 < pow2 e)%Q.
Proof. apply Qpower_0_lt. reflexivity. Qed.

Lemma pow2_add a b : (pow2 (a + b) == pow2 a * pow2 b)%Q.
Proof. apply Qpower_plus. discriminate. Qed.

Lemma pow2_nonneg_Z n : 0 <= n → (pow2 n == inject_Z (2 ^ n))%Q.
Proof. intros Hn. unfold pow2. symmetry. apply (Zpower_Qpower 2 n Hn). Qed.

Lemma rne_error q : (Qabs (inject_Z (rne q) - q) <= 1 # 2)%Q.
Proof.
  unfold rne.
  pose proof (Qfloor_le q) as Hlo.
  pose proof (Qlt_floor q) as Hhi.
  rewrite inject_Z_plus in Hhi.
  change (inject_Z 1) with 1%Q in Hhi.
  apply Qabs_Qle_condition.
  destruct (Qcompare_spec (q - inject_Z (Qfloor q)) (1 # 2)%Q) as [He|Hl|Hg];
    [destruct (Z.even (Qfloor q))| |];
    rewrite ?inject_Z_plus; change (inject_Z 1) with 1%Q; split; lra.
Qed.

Lemma rne_integer q z : (q == inject_Z z)%Q → rne q = z.
Proof.
  intros Hq. unfold rne.
  assert (Hf : Qfloor q = z) by (rewrite (Qfloor_comp _ _ Hq); apply Qfloor_Z).
  rewrite Hf.
  assert (Hc : Qcompare (q - inject_Z z) (1 # 2) = Lt)
    by (apply (proj1 (Qlt_alt _ _)); lra).
  now rewrite Hc.
Qed.

Lemma ilog2_lower q : (0 < q)%Q → (pow2 (ilog2 q) <= q)%Q.
Proof.
  intros Hq. unfold ilog2.
  destruct (Qle_bool _ q) eqn:Hb; [now apply Qle_bool_iff|].
  clear Hb. destruct q as [a b]. cbn [Qnum Qden].
  assert (Ha : 0 < a) by (unfold Qlt in Hq; simpl in Hq; lia).
  pose proof (Z.log2_spec a Ha) as [Hla _].
  pose proof (Z.log2_spec (Z.pos b) (Pos2Z.is_pos b)) as [_ Hlb].
  pose proof (Z.log2_nonneg a) as Hna.
  pose proof (Z.log2_nonneg (Z.pos b)) as Hnb.
  set (la := Z.log2 a) in *. set (lb := Z.log2 (Z.pos b)) in *.
  assert (Hk : (pow2 (la - lb - 1) * inject_Z (2 ^ Z.succ lb)
                == inject_Z (2 ^ la))%Q).
  { rewrite <- !pow2_nonneg_Z by lia. rewrite <- pow2_add.
    now replace (la - lb - 1 + Z.succ lb) with la by lia. }
  rewrite (Qmake_Qdiv a b).
  apply Qle_shift_div_l; [rewrite <- (Zlt_Qlt 0); lia|].
  apply Qle_trans with (pow2 (la - lb - 1) * inject_Z (2 ^ Z.succ lb))%Q.
  - apply Qmult_le_l; [apply pow2_pos|].
    rewrite <- Zle_Qle. lia.
  - rewrite Hk, <- Zle_Qle. exact Hla.
Qed.

Lemma ilog2_upper q : (0 < q)%Q → (q < pow2 (ilog2 q + 1))%Q.
Proof.
  intros Hq. unfold ilog2.
  destruct (Qle_bool _ q) eqn:Hb.
  - clear Hb. destruct q as [a b]. cbn [Qnum Qden].
    assert (Ha : 0 < a) by (unfold Qlt in Hq; simpl in Hq; lia).
    pose proof (Z.log2_spec a Ha) as [_ Hla].
    pose proof (Z.log2_spec (Z.pos b) (Pos2Z.is_pos b)) as [Hlb _].
    pose proof (Z.log2_nonneg a) as Hna.
    pose proof (Z.log2_nonneg (Z.pos b)) as Hnb.
    set (la := Z.log2 a) in *. set (lb := Z.log2 (Z.pos b)) in *.
    assert (Hk : (pow2 (la - lb + 1) * inject_Z (2 ^ lb)
                  == inject_Z (2 ^ Z.succ la))%Q).
    { rewrite <- !pow2_nonneg_Z by lia. rewrite <- pow2_add.
      now replace (la - lb + 1 + lb) with (Z.succ la) by lia. }
    rewrite (Qmake_Qdiv a b).
    apply Qlt_shift_div_r; [rewrite <- (Zlt_Qlt 0); lia|].
    apply Qlt_le_trans with (pow2 (la - lb + 1) * inject_Z (2 ^ lb))%Q.
    + rewrite Hk, <- Zlt_Qlt. exact Hla.
    + apply Qmult_le_l; [apply pow2_pos|].
      rewrite <- Zle_Qle. exact Hlb.
  - set (d := Z.log2 (Qnum q) - Z.log2 (Z.pos (Qden q))) in *.
    replace (d - 1 + 1) with d by lia.
    apply Qnot_le_lt. intros Hle. apply Qle_bool_iff in Hle. congruence.
Qed.

(** The significand that [fl] rounds has 53 bits. *)
Lemma fl_significand q :
  (0 < q)%Q →
  (pow2 52 <= q / pow2 (ilog2 q - 52) < pow2 53)%Q.
Proof.
  intros Hq.
  pose proof (ilog2_lower q Hq) as Hlo.
  pose proof (ilog2_upper q Hq) as Hhi.
  pose proof (pow2_pos (ilog2 q - 52)) as Hp.
  assert (H52 : (pow2 (ilog2 q) == pow2 52 * pow2 (ilog2 q - 52))%Q)
    by (rewrite <- pow2_add; now replace (52 + (ilog2 q - 52)) with (ilog2 q) by lia).
  assert (H53 : (pow2 (ilog2 q + 1) == pow2 53 * pow2 (ilog2 q - 52))%Q)
    by (rewrite <- pow2_add;
        now replace (53 + (ilog2 q - 52)) with (ilog2 q + 1) by lia).
  split.
  - apply Qle_shift_div_l; [exact Hp|]. now rewrite <- H52.
  - apply Qlt_shift_div_r; [exact Hp|]. now rewrite <- H53.
Qed.

Lemma fl_unfold q :
  Qnum q ≠ 0 →
  (fl q == inject_Z (rne (q / pow2 (Z.max (ilog2 (Qabs q) - 52) (-1074))))
           * pow2 (Z.max (ilog2 (Qabs q) - 52) (-1074)))%Q.
Proof.
  intros Hn. unfold fl. destruct (Qnum q); [done| |]; apply Qred_correct.
Qed.

Lemma Qnum_pos q : (0 < q)%Q → 0 < Qnum q.
Proof. destruct q. unfold Qlt. simpl. lia. Qed.

Lemma Qabs_pos_eq q : (0 < q)%Q → Qabs q = q.
Proof.
  intros Hq. pose proof (Qnum_pos q Hq). destruct q as [a b].
  simpl in *. now rewrite Z.abs_eq by lia.
Qed.

(** The rounding error is at most half a unit in the last place. *)
Lemma fl_error q :
  (0 < q)%Q → (pow2 (-1022) <= q)%Q →
  (Qabs (fl q - q) <= q * pow2 (-53))%Q.
Proof.
  intros Hq Hmin.
  pose proof (Qnum_pos q Hq) as Hn.
  rewrite fl_unfold by lia.
  rewrite (Qabs_pos_eq q Hq).
  set (e := Z.max (ilog2 q - 52) (-1074)).
  pose proof (pow2_pos e) as Hp.
  pose proof (rne_error (q / pow2 e)) as Hr.
  set (m := inject_Z (rne (q / pow2 e))) in *.
  assert (Hy : (q == (q / pow2 e) * pow2 e)%Q)
    by (field; lra).
  set (y := (q / pow2 e)%Q) in *.
  assert (Hd : (m * pow2 e - q == (m - y) * pow2 e)%Q)
    by (rewrite Hy at 1; ring).
  rewrite Hd, Qabs_Qmult, (Qabs_pos (pow2 e)) by lra.
  apply Qle_trans with ((1 # 2) * pow2 e)%Q.
  { apply Qmult_le_compat_r; [exact Hr | lra]. }
  clearbody y m. clear Hd Hy Hr m y.
  destruct (Z.max_spec (ilog2 q - 52) (-1074)) as [[_ He]|[_ He]];
    fold e in He; rewrite He.
  - assert (Hc : (pow2 (-1074) == pow2 (-1022) * pow2 (-52))%Q)
      by (rewrite <- pow2_add; reflexivity).
    rewrite Hc.
    assert (Hc2 : (pow2 (-53) == (1 # 2) * pow2 (-52))%Q)
      by (rewrite (pow2_add (-1) (-52)); reflexivity).
    rewrite Hc2.
    pose proof (pow2_pos (-52)) as H52.
    pose proof (pow2_pos (-1022)) as H1022.
    assert (Hm : (pow2 (-1022) * pow2 (-52) <= q * pow2 (-52))%Q)
      by (apply Qmult_le_compat_r; lra).
    lra.
  - pose proof (ilog2_lower q Hq) as Hl.
    assert (Hc : (pow2 (ilog2 q - 52) == pow2 (ilog2 q) * pow2 (-52))%Q)
      by (rewrite <- pow2_add; reflexivity).
    rewrite Hc.
    assert (Hc2 : (pow2 (-53) == (1 # 2) * pow2 (-52))%Q)
      by (rewrite (pow2_add (-1) (-52)); reflexivity).
    rewrite Hc2.
    pose proof (pow2_pos (-52)) as H52.
    assert (Hm : (pow2 (ilog2 q) * pow2 (-52) <= q * pow2 (-52))%Q)
      by (apply Qmult_le_compat_r; lra).
    lra.
Qed.

Lemma Qred_inject_Z z : Qred (inject_Z z) = inject_Z z.
Proof. apply Qred_identity. apply Z.gcd_1_r. Qed.

(** Integers below [2^53] are binary64 values. *)
Lemma fl_integer z : 0 <= z < 2 ^ 53 → fl (inject_Z z) = inject_Z z.
Proof.
  intros [Hz Hlt].
  destruct (Z.eq_dec z 0) as [->|Hne]; [reflexivity|].
  assert (Hq : (0 < inject_Z z)%Q) by (rewrite <- (Zlt_Qlt 0); lia).
  unfold fl. rewrite (Qabs_pos_eq (inject_Z z) Hq).
  assert (Hm : ∀ X, match Qnum (inject_Z z) with 0 => 0%Q | _ => X end = X)
    by (intros X; destruct z; [lia|reflexivity|reflexivity]).
  rewrite Hm. clear Hm.
  cbv zeta.
  set (e := Z.max (ilog2 (inject_Z z) - 52) (-1074)).
  transitivity (Qred (inject_Z z)); [|apply Qred_inject_Z].
  apply Qred_complete.
  assert (He : e <= 0).
  { pose proof (ilog2_lower _ Hq) as Hl.
    assert (Hk : ilog2 (inject_Z z) < 53).
    { apply (Qpower_lt_compat_l_inv 2); [|reflexivity].
      apply Qle_lt_trans with (inject_Z z); [exact Hl|].
      change (2 ^ 53)%Q with (inject_Z (2 ^ 53)).
      rewrite <- Zlt_Qlt. exact Hlt. }
    lia. }
  pose proof (pow2_pos e) as Hp.
  assert (Ho : (pow2 (- e) == / pow2 e)%Q) by apply Qpower_opp.
  assert (Hi : (inject_Z z / pow2 e == inject_Z (z * 2 ^ (- e)))%Q).
  { rewrite inject_Z_mult, <- pow2_nonneg_Z, Ho by lia. reflexivity. }
  rewrite (rne_integer _ _ Hi), inject_Z_mult, <- pow2_nonneg_Z, Ho by lia.
  field. lra.
Qed.

End JsNumberFacts.

(** The model agrees with the binary64 operations of the standard
    library on every value the fader handles. *)

Lemma binary64_agrees_on_ramp : forallb binary64_agrees (seq 0 21) = true.
Proof. vm_compute. reflexivity. Qed.

Lemma binary64_agrees_on_hours :
  forallb (λ total,
             same_value
               (SFdiv 53 1024 (binary64_of_Z total) (binary64_of_Z 3600000))
               (JsNumber.div (inject_Z total) (JsNumber.literal 3600000 1)))
    [1; 7; 180000; 540000; 899999; 900000; 3599999; 3600000; 12345678;
     987654321; 86400000; 2 ^ 31 - 1; 2 ^ 40 + 1; 2 ^ 52 - 1] = true.
Proof. vm_compute. reflexivity. Qed.

Lemma pause_delay_table :
  Forall (λ k, pause_delay (step_volume k) = inject_Z (100 * Z.of_nat k))
    [0; 1; 2; 4; 5; 8; 9; 10; 11; 13; 15; 16; 17; 18; 20]%nat ∧
  Forall (λ k, (inject_Z (100 * Z.of_nat k) - 1 < pause_delay (step_volume k)
                < inject_Z (100 * Z.of_nat k))%Q)
    [3; 6; 7; 12; 14; 19]%nat.
Proof. split; repeat constructor; vm_compute; reflexivity. Qed.

Lemma ticks_to_silence_table :
  Forall (λ k, ticks_to_silence 20 (step_volume k) = Some k) (seq 0 21).
Proof. repeat constructor; vm_compute; reflexivity. Qed.


(* ===================================================================== *)
(** * The duration stat *)
(* ===================================================================== *)

Module DurationFacts.
Import JsNumber JsNumberFacts.


Lemma inject_Z_plus_eq a b : (inject_Z a + inject_Z b)%Q = inject_Z (a + b).
Proof. unfold Qplus, inject_Z. simpl. now rewrite !Z.mul_1_r. Qed.

Lemma duration_sum_nonneg tracks : 0 <= duration_sum tracks.
Proof. induction tracks as [|t l IH]; simpl; lia. Qed.

Lemma total_duration_from tracks a :
  0 <= a → a + duration_sum tracks < 2 ^ 53 →
  fold_left (λ acc t, add acc (of_N (duration_ms (track t)))) tracks (inject_Z a)
  = inject_Z (a + duration_sum tracks).
Proof.
  revert a. induction tracks as [|t l IH]; intros a Ha Hlt; simpl in *.
  - now rewrite Z.add_0_r.
  - pose proof (duration_sum_nonneg l) as Hl.
    unfold add at 2, of_N.
    rewrite fl_integer by lia.
    rewrite inject_Z_plus_eq, fl_integer by lia.
    rewrite IH by lia. f_equal. lia.
Qed.

Lemma total_duration_exact tracks :
  duration_sum tracks < 2 ^ 53 →
  total_duration tracks = inject_Z (duration_sum tracks).
Proof.
  intros H. unfold total_duration.
  change 0%Q with (inject_Z 0). now rewrite total_duration_from.
Qed.

Lemma hours_rounding s :
  0 < s < 2 ^ 52 →
  let q := (inject_Z s / inject_Z 3600000)%Q in
  (0 <= fl q)%Q ∧ nearest_tenth q (round_fixed 1 (fl q)).
Proof.
  intros [Hs Hlt] q.
  assert (Hs' : (1 <= inject_Z s)%Q) by (rewrite <- (Zle_Qle 1); lia).
  assert (Hlt' : (inject_Z s < inject_Z (2 ^ 52))%Q) by (rewrite <- Zlt_Qlt; lia).
  assert (Hq : (q * inject_Z 3600000 == inject_Z s)%Q)
    by (unfold q; field; discriminate).
  assert (Hqpos : (0 < q)%Q).
  { unfold q. apply Qlt_shift_div_l; [reflexivity|]. lra. }
  assert (Hmin : (pow2 (-1022) <= q)%Q).
  { apply Qle_trans with (1 # 3600000)%Q; [vm_compute; discriminate|].
    change (inject_Z 3600000) with (3600000 # 1)%Q in Hq. lra. }
  pose proof (fl_error q Hqpos Hmin) as Herr.
  apply Qabs_Qle_condition in Herr.
  change (pow2 (-53)) with (1 # 9007199254740992)%Q in Herr.
  change (inject_Z 3600000) with (3600000 # 1)%Q in Hq.
  change (inject_Z (2 ^ 52)) with (4503599627370496 # 1)%Q in Hlt'.
  split; [lra|].
  unfold nearest_tenth, round_fixed.
  change (inject_Z (10 ^ Z.of_nat 1)) with (10 # 1)%Q.
  set (y := (fl q * (10 # 1) + (1 # 2))%Q).
  pose proof (Qfloor_le y) as Hlo.
  pose proof (Qlt_floor y) as Hhi.
  rewrite inject_Z_plus in Hhi. change (inject_Z 1) with 1%Q in Hhi.
  set (n := Qfloor y) in *.
  assert (Hup : 720000 * n <= 2 * s + 360000).
  { assert (H : 720000 * n < 2 * s + 360001); [|lia].
    rewrite Zlt_Qlt, inject_Z_plus, !inject_Z_mult.
    change (inject_Z 720000) with (720000 # 1)%Q.
    change (inject_Z 2) with 2%Q.
    change (inject_Z 360001) with (360001 # 1)%Q.
    unfold y in Hlo. lra. }
  assert (Hdn : 2 * s + 360000 <= 720000 * n + 720000).
  { assert (H : 2 * s + 359999 < 720000 * n + 720000); [|lia].
    rewrite Zlt_Qlt, !inject_Z_plus, !inject_Z_mult.
    change (inject_Z 720000) with (720000 # 1)%Q.
    change (inject_Z 2) with 2%Q.
    change (inject_Z 359999) with (359999 # 1)%Q.
    unfold y in Hhi. lra. }
  apply Qabs_Qle_condition.
  rewrite Zle_Qle, !inject_Z_plus, !inject_Z_mult in Hup.
  rewrite Zle_Qle, !inject_Z_plus, !inject_Z_mult in Hdn.
  change (inject_Z 720000) with (720000 # 1)%Q in *.
  change (inject_Z 2) with 2%Q in *.
  change (inject_Z 360000) with (360000 # 1)%Q in *.
  split; lra.
Qed.

(** One digit after the point. *)
Lemma render_fixed_1 n :
  0 <= n →
  render_fixed false n 1 = pretty (n / 10) +:+ "." +:+ pretty (n mod 10) ∧
  String.length (pretty (n mod 10)) = 1%nat.
Proof.
  intros Hn. unfold render_fixed.
  change (10 ^ Z.of_nat 1) with 10.
  pose proof (Z.mod_pos_bound n 10 ltac:(lia)) as Hm.
  assert (Hd : n mod 10 = 0 ∨ n mod 10 = 1 ∨ n mod 10 = 2 ∨ n mod 10 = 3 ∨
               n mod 10 = 4 ∨ n mod 10 = 5 ∨ n mod 10 = 6 ∨ n mod 10 = 7 ∨
               n mod 10 = 8 ∨ n mod 10 = 9) by lia.
  destruct Hd as [->|[->|[->|[->|[->|[->|[->|[->|[->| ->]]]]]]]]];
    split; reflexivity.
Qed.

Lemma duration_rounding tracks :
  duration_sum tracks < 2 ^ 52 →
  ∃ n : Z,
    nearest_tenth (inject_Z (duration_sum tracks) / inject_Z 3600000) n ∧
    duration tracks = pretty (n / 10) +:+ "." +:+ pretty (n mod 10) ∧
    String.length (pretty (n mod 10)) = 1%nat.
Proof.
  intros Hlt.
  pose proof (duration_sum_nonneg tracks) as Hnn.
  unfold duration.
  rewrite total_duration_exact by lia.
  change (literal 3600000 1) with (inject_Z 3600000).
  set (s := duration_sum tracks) in *.
  destruct (Z.eq_dec s 0) as [->|Hne].
  - exists 0. split_and!; try reflexivity.
    unfold nearest_tenth. vm_compute. discriminate.
  - destruct (hours_rounding s ltac:(lia)) as [Hpos Hnear].
    unfold div. set (x := fl (inject_Z s / inject_Z 3600000)) in *.
    exists (round_fixed 1 x).
    assert (Hn : 0 <= round_fixed 1 x).
    { unfold round_fixed. change (inject_Z (10 ^ Z.of_nat 1)) with (10 # 1)%Q.
      rewrite <- (Qfloor_Z 0). apply Qfloor_resp_le.
      change (inject_Z 0) with 0%Q. lra. }
    destruct (render_fixed_1 _ Hn) as [Hr Hl].
    split_and!; [exact Hnear| |exact Hl].
    unfold toFixed.
    assert (Hneg : ltb x 0%Q = false).
    { unfold ltb. apply negb_false_iff, Qle_bool_iff. exact Hpos. }
    assert (Habs : round_fixed 1 (Qabs x) = round_fixed 1 x).
    { unfold round_fixed. apply Qfloor_comp. now rewrite Qabs_pos. }
    now rewrite Hneg, Habs.
Qed.


End DurationFacts.

(** C5.  The duration stat is the sum of the durations divided by
    3,600,000, shown with one decimal (a value with one decimal nearest to
    the quotient) and followed by the word hours.  The total stays below
    [2^52] milliseconds, where binary64 sums of integers are exact. *)
Theorem duration_stat_in_hours data tracks :
  duration_sum tracks < 2 ^ 52 →
  ∃ n : Z,
    nearest_tenth (inject_Z (duration_sum tracks) / inject_Z 3600000) n ∧
    duration tracks = pretty (n / 10) +:+ "." +:+ pretty (n mod 10) ∧
    String.length (pretty (n mod 10)) = 1%nat ∧
    stats data tracks !! O = Some (duration tracks +:+ " hours").
Proof.
  intros Hlt. destruct (DurationFacts.duration_rounding tracks Hlt) as (n & H1 & H2 & H3).
  exists n. split_and!; [done|done|done|reflexivity].
Qed.

Lemma duration_stat_in_hours_witness :
  ∃ n : Z,
    nearest_tenth (inject_Z 540000 / inject_Z 3600000) n ∧
    duration sample_tracks = pretty (n / 10) +:+ "." +:+ pretty (n mod 10) ∧
    String.length (pretty (n mod 10)) = 1%nat ∧
    stats sample_playlist sample_tracks !! O
    = Some (duration sample_tracks +:+ " hours").
Proof.
  apply (duration_stat_in_hours sample_playlist sample_tracks).
  vm_compute. reflexivity.
Defined.

(* ===================================================================== *)
(** * The artist aggregates *)
(* ===================================================================== *)


Lemma credits_snoc_eq n seen : credits n (seen ++ [n]) = S (credits n seen).
Proof.
  unfold credits. rewrite filter_app, length_app. simpl.
  rewrite filter_cons_True, filter_nil by done. simpl. lia.
Qed.

Lemma credits_snoc_ne n m seen : m ≠ n → credits n (seen ++ [m]) = credits n seen.
Proof.
  intros Hne. unfold credits. rewrite filter_app, length_app. simpl.
  rewrite filter_cons_False, filter_nil by done. simpl. lia.
Qed.

Lemma credits_notin n seen : n ∉ seen → credits n seen = O.
Proof.
  intros Hn. unfold credits.
  induction seen as [|m l IH]; [done|].
  rewrite not_elem_of_cons in Hn. destruct Hn as [Hne Hl].
  rewrite filter_cons_False by (intros ->; done). auto.
Qed.

Lemma truthy_spec s : JsString.truthy s = true ↔ s ≠ "".
Proof.
  unfold JsString.truthy. destruct (String.eqb_spec s ""); split; intros; try done.
Qed.

Lemma visit_tallied acc seen a :
  tallied acc seen → tallied (visit acc a) (seen ++ [artist_name a]).
Proof.
  intros [Hnd Hent Hall]. unfold visit.
  set (s := artist_name a).
  destruct (list_find (λ e, name e = s) acc) as [[i e]|] eqn:Hfind.
  - apply list_find_Some in Hfind as (Hi & Hname & _).
    assert (Hnames : name <$> <[i:={| name := name e; count := count e + 1 |}]> acc
                     = name <$> acc).
    { rewrite list_fmap_insert. simpl. apply list_insert_id.
      now rewrite list_lookup_fmap, Hi. }
    split.
    + now rewrite Hnames.
    + intros e' He'.
      apply list_elem_of_lookup in He' as [j Hj].
      destruct (decide (i = j)) as [<-|Hij].
      * rewrite list_lookup_insert_eq in Hj by (eapply lookup_lt_Some; eauto).
        injection Hj as <-. simpl.
        destruct (Hent e) as (Hne & Hin & Hc);
          [eapply list_elem_of_lookup_2; eauto|].
        split_and!; [done|apply elem_of_app; by left|].
        rewrite Hname, credits_snoc_eq, Nat.add_1_r. f_equal.
        now rewrite <- Hname.
      * rewrite list_lookup_insert_ne in Hj by done.
        destruct (Hent e') as (Hne & Hin & Hc);
          [eapply list_elem_of_lookup_2; eauto|].
        split_and!; [done|apply elem_of_app; by left|].
        rewrite credits_snoc_ne; [done|].
        intros Heq. apply Hij.
        eapply (NoDup_lookup (name <$> acc)); [done| |].
        -- rewrite list_lookup_fmap, Hi. simpl. reflexivity.
        -- rewrite list_lookup_fmap, Hj. simpl. congruence.
    + intros n Hn Hne. rewrite Hnames.
      apply elem_of_app in Hn as [Hn|Hn]; [auto|].
      apply list_elem_of_singleton in Hn as ->.
      apply list_elem_of_fmap. exists e. split; [done|].
      eapply list_elem_of_lookup_2; eauto.
  - apply list_find_None in Hfind. rewrite Forall_forall in Hfind.
    assert (Hfresh : s ∉ name <$> acc).
    { intros (e & He1 & He2)%list_elem_of_fmap. now apply (Hfind e). }
    destruct (JsString.truthy s) eqn:Ht.
    + apply truthy_spec in Ht.
      assert (Hns : s ∉ seen) by (intros Hin; apply Hfresh; auto).
      split.
      * rewrite fmap_app. apply NoDup_app. split_and!; [done| |].
        -- intros x Hx Hx'. apply list_elem_of_singleton in Hx'. simpl in Hx'.
           now subst x.
        -- apply NoDup_singleton.
      * intros e [He|He]%elem_of_app.
        -- destruct (Hent e He) as (Hne & Hin & Hc).
           split_and!; [done|apply elem_of_app; by left|].
           rewrite credits_snoc_ne; [done|].
           intros Heq. apply Hfresh. apply list_elem_of_fmap. eauto.
        -- apply list_elem_of_singleton in He as ->. simpl.
           split_and!; [done|apply elem_of_app; right; constructor|].
           now rewrite credits_snoc_eq, credits_notin.
      * intros n [Hn|Hn]%elem_of_app Hne; rewrite fmap_app.
        -- apply elem_of_app. left. auto.
        -- apply elem_of_app. right. exact Hn.
    + assert (Hs : s = "").
      { destruct (decide (s = "")) as [|Hne]; [done|].
        apply truthy_spec in Hne. congruence. }
      split.
      * done.
      * intros e He. destruct (Hent e He) as (Hne & Hin & Hc).
        split_and!; [done|apply elem_of_app; by left|].
        rewrite credits_snoc_ne; [done|congruence].
      * intros n [Hn|Hn]%elem_of_app Hne; [auto|].
        apply list_elem_of_singleton in Hn. congruence.
Qed.

Lemma fold_visit_tallied l acc seen :
  tallied acc seen →
  tallied (fold_left visit l acc) (seen ++ (artist_name <$> l)).
Proof.
  revert acc seen. induction l as [|a l IH]; intros acc seen H; simpl.
  - now rewrite app_nil_r.
  - rewrite (cons_middle _ seen), app_assoc. apply IH. now apply visit_tallied.
Qed.

Lemma artists_from tracks acc seen :
  tallied acc seen →
  tallied (fold_left (λ acc t, fold_left visit (track_artists (track t)) acc)
             tracks acc)
          (seen ++ credited_names tracks).
Proof.
  revert acc seen. induction tracks as [|t l IH]; intros acc seen H; simpl.
  - now rewrite app_nil_r.
  - unfold credited_names. simpl. rewrite app_assoc.
    apply IH. now apply fold_visit_tallied.
Qed.

Lemma artists_tallied tracks : tallied (artists tracks) (credited_names tracks).
Proof.
  apply (artists_from tracks [] []).
  split; [constructor|by intros e He%elem_of_nil|by intros n Hn%elem_of_nil].
Qed.


Section Sort.
Context {A : Type} (comparefn : A → A → Z).

Lemma sift_perm x before : sift comparefn x before ≡ₚ x :: before.
Proof.
  induction before as [|tmp rest IH]; simpl; [done|].
  destruct (0 <? comparefn tmp x); [|done].
  rewrite IH. apply Permutation_swap.
Qed.

Lemma sift_all_perm l before :
  fold_left (λ before element, sift comparefn element before) l before
  ≡ₚ before ++ l.
Proof.
  revert before. induction l as [|x l IH]; intros before; simpl.
  - now rewrite app_nil_r.
  - rewrite IH, sift_perm. simpl. apply Permutation_middle.
Qed.

Lemma insertion_sort_perm l : insertion_sort comparefn l ≡ₚ l.
Proof.
  unfold insertion_sort. etrans; [symmetry; apply Permutation_rev|].
  apply (sift_all_perm l []).
Qed.
End Sort.


Lemma sift_sorted x before :
  StronglySorted fewer before → StronglySorted fewer (sift by_count x before).
Proof.
  induction 1 as [|tmp rest Hs IH Hall]; simpl.
  - repeat constructor.
  - unfold by_count at 1.
    destruct (Nat.ltb_spec (count tmp) (count x)) as [Hlt|Hge]; simpl.
    + constructor; [done|].
      rewrite (sift_perm by_count x rest). constructor; [unfold fewer; lia|done].
    + constructor; [by constructor|].
      constructor; [done|].
      eapply Forall_impl; [exact Hall|]. unfold fewer. intros; lia.
Qed.

Lemma StronglySorted_rev_fewer l :
  StronglySorted fewer l → StronglySorted more (rev l).
Proof.
  induction 1 as [|x l Hs IH Hall]; simpl; [constructor|].
  apply StronglySorted_app_2; [|done|repeat constructor].
  intros a b Ha Hb. apply list_elem_of_singleton in Hb as ->.
  rewrite Forall_forall in Hall. apply Hall.
  apply list_elem_of_In, in_rev. now apply list_elem_of_In.
Qed.

Lemma insertion_sort_sorted l :
  StronglySorted more (insertion_sort by_count l).
Proof.
  unfold insertion_sort. apply StronglySorted_rev_fewer.
  assert (H : StronglySorted fewer []) by constructor.
  revert H. generalize (@nil ArtistCount) as before.
  induction l as [|x l IH]; intros before H; simpl; [done|].
  apply IH. now apply sift_sorted.
Qed.

Lemma StronglySorted_lookup {A} (R : relation A) `{!Reflexive R} l i j a b :
  StronglySorted R l → l !! i = Some a → l !! j = Some b → (i ≤ j)%nat → R a b.
Proof.
  intros Hs. revert i j. induction Hs as [|x l Hs IH Hall]; intros i j Hi Hj Hij.
  - done.
  - destruct i as [|i], j as [|j]; simpl in *; simplify_eq; try lia.
    + reflexivity.
    + rewrite Forall_forall in Hall. apply Hall.
      eapply list_elem_of_lookup_2; eauto.
    + eapply IH; eauto. lia.
Qed.

Lemma credits_appearances tracks n :
  credits n (credited_names tracks) = appearances tracks n.
Proof. reflexivity. Qed.

Lemma unique_artists_nonempty tracks :
  uniqueArtists tracks
  = list_to_set (filter (λ n, n ≠ "") (credited_names tracks)).
Proof.
  pose proof (artists_tallied tracks) as [Hnd Hent Hall].
  unfold uniqueArtists. apply set_eq. intros n.
  rewrite !elem_of_list_to_set, list_elem_of_filter. split.
  - intros (e & -> & He)%list_elem_of_fmap.
    destruct (Hent e He) as (? & ? & ?). done.
  - intros [Hne Hin]. auto.
Qed.

Lemma by_count_more a b : by_count a b <= 0 ↔ more a b.
Proof.
  unfold by_count, more.
  destruct (Nat.ltb_spec (count a) (count b)); split; intros; lia.
Qed.

(** The insertion sort and the reversing sort do what the theorems ask of
    the engine's sort. *)
Lemma insertion_sort_sorts_by_count : sorts_by_count insertion_sort.
Proof.
  split; [apply insertion_sort_perm|].
  intros l i j a b Hi Hj Hij. apply by_count_more.
  assert (Hr : Reflexive more) by (intros x; unfold more; lia).
  apply (StronglySorted_lookup more _ i j a b (insertion_sort_sorted l) Hi Hj).
  lia.
Qed.

Lemma reversing_sort_sorts_by_count : sorts_by_count reversing_sort.
Proof.
  destruct insertion_sort_sorts_by_count as [Hperm Hord].
  split; unfold reversing_sort.
  - intros l. rewrite Hperm. apply reverse_Permutation.
  - intros l. apply Hord.
Qed.

(** The engine gives the elements the comparator does not tell apart in
    an order of its own: with six artists credited once each the two
    sorts above feature different names. *)
Lemma tie_order_is_left_to_the_engine :
  topArtists insertion_sort level_tracks = ["Ada"; "Bo"; "Cy"; "Di"; "Ed"] ∧
  topArtists reversing_sort level_tracks = ["Flo"; "Ed"; "Di"; "Cy"; "Bo"].
Proof. split; vm_compute; reflexivity. Qed.

Lemma ordered_StronglySorted (l : list ArtistCount) :
  (∀ i j a b, l !! i = Some a → l !! j = Some b → (i < j)%nat →
     by_count a b <= 0) →
  StronglySorted more l.
Proof.
  induction l as [|x l IH]; intros H; constructor.
  - apply IH. intros i j a b Hi Hj Hij. apply (H (S i) (S j)); [done|done|lia].
  - apply Forall_forall. intros y Hy.
    apply list_elem_of_lookup_1 in Hy as [j Hj].
    apply by_count_more, (H O (S j)); [done|done|lia].
Qed.

Lemma credits_once n (l : list string) :
  NoDup l → credits n l = if decide (n ∈ l) then 1%nat else 0%nat.
Proof.
  unfold credits. induction 1 as [|m l Hm Hnd IH]; [done|].
  rewrite filter_cons. destruct (decide (m = n)) as [->|Hne].
  - cbn [length]. rewrite IH.
    rewrite decide_False by done.
    rewrite decide_True by (apply list_elem_of_here). done.
  - rewrite IH. destruct (decide (n ∈ l)) as [Hin|Hnin].
    + rewrite decide_True by (now apply list_elem_of_further). done.
    + rewrite decide_False; [done|].
      intros [->|?]%elem_of_cons; done.
Qed.

(** Credits and tracks count the same when no track credits a name
    twice. *)
Lemma appearances_by_track tracks n :
  (∀ t, t ∈ tracks → NoDup (artist_name <$> track_artists (track t))) →
  appearances tracks n = track_appearances tracks n.
Proof.
  unfold appearances, track_appearances.
  induction tracks as [|t l IH]; intros Hnd; [done|].
  change (credited_names (t :: l))
    with ((artist_name <$> track_artists (track t)) ++ credited_names l).
  rewrite filter_app, length_app, filter_cons.
  rewrite IH by (intros t' Ht'; apply Hnd; now apply list_elem_of_further).
  pose proof (credits_once n _ (Hnd t (list_elem_of_here _ _))) as Hc.
  unfold credits in Hc. rewrite Hc.
  destruct (decide (n ∈ artist_name <$> track_artists (track t))); done.
Qed.

(** C7, as amended.  For an engine whose sort gives back the elements of
    the array with none placed before one that the comparator sends first,
    the names handed to the "Featuring" sentence are at most five, and all
    of them when fewer than five non-empty names are credited; each is a
    non-empty credited name, listed once; they come in order of
    non-increasing number of credits, and no non-empty credited name left
    out has more credits than a listed one.  The number of credits of a
    name is the number of tracks it appears on when no track credits a
    name twice. *)
Theorem top_artists_spec sort tracks :
  sorts_by_count sort →
  let top := topArtists sort tracks in
  (length top ≤ 5)%nat ∧
  length top = (5 `min` size (uniqueArtists tracks))%nat ∧
  NoDup top ∧
  (∀ n, n ∈ top → n ≠ "" ∧ n ∈ credited_names tracks) ∧
  ranked (appearances tracks)
    (filter (λ n, n ≠ "") (credited_names tracks)) top ∧
  ((∀ t, t ∈ tracks → NoDup (artist_name <$> track_artists (track t))) →
   ∀ n, appearances tracks n = track_appearances tracks n).
Proof.
  intros [Hperm' Hord] top.
  pose proof (artists_tallied tracks) as [Hnd Hent Hall].
  pose proof (Hperm' (artists tracks)) as Hperm.
  pose proof (ordered_StronglySorted _ (Hord (artists tracks))) as Hsorted.
  set (sorted := sort by_count (artists tracks)) in *.
  assert (Hent' : ∀ e, e ∈ sorted →
            name e ≠ "" ∧ name e ∈ credited_names tracks
            ∧ count e = appearances tracks (name e)).
  { intros e He. rewrite Hperm in He. now apply Hent. }
  assert (Hnd' : NoDup (name <$> sorted)) by now rewrite Hperm.
  rewrite <- (take_drop 5 sorted) in Hsorted.
  unfold top, topArtists. fold sorted.
  split_and!.
  - rewrite length_fmap, length_take. lia.
  - rewrite length_fmap, length_take. unfold uniqueArtists.
    rewrite size_list_to_set, length_fmap, <- Hperm by done. reflexivity.
  - rewrite fmap_take. eapply sublist_NoDup; [exact Hnd'|apply sublist_take].
  - intros n (e & -> & He)%list_elem_of_fmap.
    apply subseteq_take in He.
    destruct (Hent' e He) as (? & ? & ?). done.
  - split.
    + intros i j a b Hi Hj Hij.
      rewrite list_lookup_fmap in Hi, Hj.
      destruct (take 5 sorted !! i) as [ea|] eqn:Hea; [|done].
      destruct (take 5 sorted !! j) as [eb|] eqn:Heb; [|done].
      simpl in Hi, Hj. simplify_eq.
      destruct (Hent' ea) as (_ & _ & <-);
        [eapply subseteq_take, list_elem_of_lookup_2; eauto|].
      destruct (Hent' eb) as (_ & _ & <-);
        [eapply subseteq_take, list_elem_of_lookup_2; eauto|].
      apply StronglySorted_app_1_l in Hsorted.
      assert (Hr : Reflexive more) by (intros x; unfold more; lia).
      apply (StronglySorted_lookup more _ i j ea eb Hsorted Hea Heb Hij).
    + intros a b (ea & -> & Hea)%list_elem_of_fmap
        [Hne Hb]%list_elem_of_filter Hnot.
      assert (Hbn : b ∈ name <$> sorted) by (rewrite Hperm; auto).
      apply list_elem_of_fmap in Hbn as (eb & -> & Heb).
      rewrite <- (take_drop 5 sorted) in Heb.
      apply elem_of_app in Heb as [Heb|Heb].
      { exfalso. apply Hnot. apply list_elem_of_fmap. eauto. }
      destruct (Hent' ea) as (_ & _ & <-); [eapply subseteq_take; eauto|].
      destruct (Hent' eb) as (_ & _ & <-); [eapply subseteq_drop; eauto|].
      apply (StronglySorted_app_1_elem_of more _ _ ea eb Hsorted Hea Heb).
  - intros Honce n. now apply appearances_by_track.
Qed.

Lemma top_artists_spec_witness :
  (appearances crowded_tracks "Flo" ≤ appearances crowded_tracks "Ada")%nat.
Proof.
  destruct (top_artists_spec insertion_sort crowded_tracks
              insertion_sort_sorts_by_count) as (_ & _ & _ & _ & [_ Hr] & _).
  apply Hr; refine (bool_decide_unpack _ _); vm_compute; exact I.
Defined.

(** C7 as the specification states it ranks every credited name by the
    number of tracks it appears on.  On the first playlist the name on
    most tracks is the empty one, and it is left out although the list
    has room; on the second one artist is credited three times by one
    track and listed before an artist who appears on two tracks.  Both
    hold whatever order the engine gives to equal counts. *)
Lemma top_artists_not_ranked_by_track_appearances :
  (∀ sort, sorts_by_count sort →
     ¬ ranked (track_appearances unnamed_tracks)
         (credited_names unnamed_tracks) (topArtists sort unnamed_tracks)) ∧
  (∀ sort, sorts_by_count sort →
     ¬ ranked (track_appearances repeated_credit_tracks)
         (credited_names repeated_credit_tracks)
         (topArtists sort repeated_credit_tracks)).
Proof.
  split; intros sort [Hperm Hord] [Horder Hcut].
  - assert (Ha : artists unnamed_tracks = [{| name := "Ada"; count := 1 |}])
      by (vm_compute; reflexivity).
    assert (Htop : topArtists sort unnamed_tracks = ["Ada"]).
    { unfold topArtists. specialize (Hperm (artists unnamed_tracks)).
      rewrite Ha in Hperm |- *.
      apply Permutation_singleton_r in Hperm. now rewrite Hperm. }
    rewrite Htop in Hcut.
    assert (Hle : (track_appearances unnamed_tracks ""
                   ≤ track_appearances unnamed_tracks "Ada")%nat).
    { apply Hcut; [apply list_elem_of_here| |].
      - refine (bool_decide_unpack _ _); vm_compute; exact I.
      - intros [?|?%elem_of_nil]%elem_of_cons; done. }
    vm_compute in Hle. lia.
  - assert (Ha : artists repeated_credit_tracks
                 = [{| name := "Ada"; count := 3 |};
                    {| name := "Bo"; count := 2 |}])
      by (vm_compute; reflexivity).
    assert (Htop : topArtists sort repeated_credit_tracks = ["Ada"; "Bo"]).
    { unfold topArtists.
      specialize (Hperm (artists repeated_credit_tracks)).
      specialize (Hord (artists repeated_credit_tracks)).
      rewrite Ha in Hperm, Hord |- *.
      symmetry in Hperm. apply Permutation_length_2_inv in Hperm as [->| Hl].
      - reflexivity.
      - exfalso. rewrite Hl in Hord.
        specialize (Hord 0%nat 1%nat _ _ eq_refl eq_refl).
        vm_compute in Hord. apply Hord; [lia|reflexivity]. }
    rewrite Htop in Horder.
    assert (Hle : (track_appearances repeated_credit_tracks "Bo"
                   ≤ track_appearances repeated_credit_tracks "Ada")%nat).
    { apply (Horder 0%nat 1%nat); [reflexivity|reflexivity|lia]. }
    vm_compute in Hle. lia.
Qed.


(* ===================================================================== *)
(** * Description and track count *)
(* ===================================================================== *)

Lemma append_length s t :
  String.length (s +:+ t) = (String.length s + String.length t)%nat.
Proof. induction s as [|c s IH]; simpl; [done|]. now rewrite IH. Qed.

Lemma append_inj_r s1 s2 t : s1 +:+ t = s2 +:+ t → s1 = s2.
Proof.
  revert s2. induction s1 as [|c s1 IH]; intros [|d s2] H.
  - reflexivity.
  - apply (f_equal String.length) in H.
    rewrite !append_length in H. cbn [String.length] in H. lia.
  - apply (f_equal String.length) in H.
    rewrite !append_length in H. cbn [String.length] in H. lia.
  - simpl in H. injection H as -> H. f_equal. now apply IH.
Qed.

Lemma substring_append_r s t :
  String.substring (String.length s) (String.length t) (s +:+ t) = t.
Proof.
  induction s as [|c s IH]; simpl.
  - induction t as [|d t IHt]; simpl; [done|].
    destruct t; simpl in *; now rewrite ?IHt.
  - exact IH.
Qed.

Lemma endsWith_append s suffix : JsString.endsWith suffix (s +:+ suffix) = true.
Proof.
  unfold JsString.endsWith. rewrite append_length.
  replace (String.length s + String.length suffix - String.length suffix)%nat
    with (String.length s) by lia.
  rewrite substring_append_r, String.eqb_refl, andb_true_r.
  apply Nat.leb_le. lia.
Qed.

(** C9.  The description handed to the renderer is [data.description]
    when that ends with a full stop and [data.description] followed by
    a full stop otherwise; either way it ends with a full stop. *)
Theorem description_ends_with_full_stop data :
  description data
  = (if JsString.endsWith "." (playlist_description data)
     then playlist_description data
     else playlist_description data +:+ ".") ∧
  JsString.endsWith "." (description data) = true.
Proof.
  split; [reflexivity|]. unfold description.
  destruct (JsString.endsWith "." (playlist_description data)) eqn:He.
  - exact He.
  - apply endsWith_append.
Qed.

(** C8, as amended.  The track-count stat shows [data.tracks.total].  The
    list below it has one row per element of [tracks], so the two numbers
    agree exactly when [data.tracks.total] is the length of [tracks]. *)
Theorem track_count_stat sort decode format data tracks :
  stats data tracks !! 1%nat = Some (pretty (tracks_total data) +:+ " tracks") ∧
  length (rows (Playlist sort decode format data tracks)) = length tracks ∧
  (stats data tracks !! 1%nat
   = Some (pretty (length (rows (Playlist sort decode format data tracks)))
           +:+ " tracks")
   ↔ tracks_total data = N.of_nat (length tracks)).
Proof.
  assert (Hlen : length (rows (Playlist sort decode format data tracks))
                 = length tracks) by apply length_imap.
  split_and!; [reflexivity|exact Hlen|].
  rewrite Hlen. cbn [stats lookup list_lookup]. split.
  - intros H. injection H as H. apply append_inj_r in H.
    unfold pretty at 2, pretty_nat in H. now apply (inj pretty) in H.
  - intros ->. reflexivity.
Qed.

Lemma track_count_stat_witness :
  stats sample_playlist sample_tracks !! 1%nat
  = Some (pretty (length (rows (Playlist insertion_sort id
                                  (JsString.join ", ")
                                  sample_playlist sample_tracks)))
          +:+ " tracks").
Proof.
  apply (proj2 (proj2 (proj2 (track_count_stat insertion_sort id
                                (JsString.join ", ")
                                sample_playlist sample_tracks)))).
  reflexivity.
Defined.

(** C8 as the specification states it fails when the metadata counts
    tracks that the page was not given. *)
Lemma track_count_differs_from_rows :
  stats short_playlist [] !! 1%nat
  ≠ Some (pretty (length (rows (Playlist insertion_sort id
                                  (JsString.join ", ")
                                  short_playlist [])))
          +:+ " tracks").
Proof. vm_compute. discriminate. Qed.

(** C6, as amended.  The artist-count stat is the number of distinct
    non-empty names among the artists credited on the tracks. *)
Theorem artist_count_stat data tracks :
  stats data tracks !! 2%nat
  = Some (pretty (size (list_to_set (C := gset string)
                          (filter (λ n, n ≠ "") (credited_names tracks))))
          +:+ " artists").
Proof.
  cbn [stats lookup list_lookup]. now rewrite unique_artists_nonempty.
Qed.

(** C6 as the specification states it counts the empty name too: two
    distinct names are credited here and the stat says one. *)
Lemma unnamed_artist_not_counted :
  stats sample_playlist unnamed_tracks !! 2%nat
  ≠ Some (pretty (size (list_to_set (C := gset string)
                          (credited_names unnamed_tracks)))
          +:+ " artists").
Proof. vm_compute. discriminate. Qed.


(* ===================================================================== *)
(** * The fade-in ramp *)
(* ===================================================================== *)

Lemma alter_snoc {A} (f : A → A) (l : list A) (x : A) :
  alter f (length l) (l ++ [x]) = l ++ [f x].
Proof.
  rewrite <- (Nat.add_0_r (length l)). now rewrite alter_app_r.
Qed.

Lemma lookup_snoc_new {A} (l : list A) (x : A) : (l ++ [x]) !! length l = Some x.
Proof. rewrite lookup_app_r by lia. now rewrite Nat.sub_diag. Qed.

Lemma has_preview_Some t url :
  preview_url t = Some url → url ≠ "" → has_preview t = Some url.
Proof.
  intros Hp Hne. unfold has_preview, JsString.truthy. rewrite Hp.
  destruct (String.eqb_spec url ""); [done|reflexivity].
Qed.

Lemma set_volume_zero a w :
  set_volume a 0%Q w
  = with_audios (alter (λ el, {| src := src el; volume := 0%Q;
                                 paused := paused el |}) a) w.
Proof. reflexivity. Qed.

(** What [play] does when it gets past its guard. *)
Lemma play_effect w i st t url :
  hooks w !! i = Some st → audio st = None → has_preview t = Some url →
  let a := length (audios w) in
  let h := length (timers w) in
  let w' := play t i w in
  audios w' = audios w ++ [{| src := url; volume := 0%Q; paused := false |}] ∧
  timers w' = timers w ++ [{| handler := FadeInTick a (fadeIn st);
                              due := now w + 100; period := Some 100;
                              active := true |}] ∧
  promises w' = promises w ++ [{| p_audio := a; p_track := i;
                                  p_interactableNotified := interactableNotified w;
                                  p_outcome := None |}] ∧
  toasts w' = toasts w ∧
  interactableNotified w' = interactableNotified w ∧
  now w' = now w ∧
  hooks w' = <[i := {| audio := Some a; fadeIn := Some h;
                       fadeOut := fadeOut st;
                       interactable := interactable st |}]> (hooks w).
Proof.
  intros Hst Ha Hp. cbv zeta. unfold play. rewrite Hst, Ha, Hp.
  rewrite set_volume_zero. cbn -[alter].
  rewrite !alter_snoc. cbn. split_and!; try reflexivity.
  rewrite list_alter_alter_eq.
  apply list_eq. intros j. destruct (decide (i = j)) as [<-|Hne].
  - rewrite list_lookup_alter_eq, list_lookup_insert_eq, Hst
      by (eapply lookup_lt_Some; eauto). reflexivity.
  - now rewrite list_lookup_alter_ne, list_lookup_insert_ne.
Qed.

Lemma louder_table k :
  (k < 20)%nat →
  JsNumber.ltb (step_volume k) 1%Q = true ∧
  louder (step_volume k) = Some (step_volume (S k)) ∧
  Qle_bool 0 (step_volume (S k)) && Qle_bool (step_volume (S k)) 1 = true ∧
  (step_volume k < step_volume (S k))%Q.
Proof.
  intros Hk.
  do 20 (destruct k as [|k]; [vm_compute; auto|]). lia.
Qed.

Lemma step_volume_full : step_volume 20 = 1%Q.
Proof. vm_compute. reflexivity. Qed.

Lemma step_volume_le_1 k : (k ≤ 20)%nat → (step_volume k <= 1)%Q.
Proof.
  intros Hk.
  do 21 (destruct k as [|k]; [vm_compute; discriminate|]). lia.
Qed.

Lemma fade_in_tick a f w el k :
  audios w !! a = Some el → volume el = step_volume k → (k ≤ 20)%nat →
  audios (run_callback (FadeInTick a f) w) !! a
  = Some {| src := src el; volume := step_volume (S k `min` 20);
            paused := paused el |}.
Proof.
  intros Hel Hv Hk. unfold run_callback. rewrite Hel, Hv.
  destruct (decide (k = 20%nat)) as [->|Hne].
  - rewrite step_volume_full. change (JsNumber.ltb 1%Q 1%Q) with false. cbv iota.
    assert (Ha : ∀ w', audios match f with
                              | Some h => clearInterval h w'
                              | None => w' end = audios w')
      by (intros w'; destruct f; reflexivity).
    rewrite Ha, Hel. destruct el as [s v p]. simpl in *.
    rewrite Hv. reflexivity.
  - destruct (louder_table k) as (Hlt & Hl & Hr & _); [lia|].
    rewrite Hlt, Hl. unfold set_volume. rewrite Hr. cbn [audios with_audios].
    rewrite list_lookup_alter_eq, Hel. simpl.
    now rewrite Nat.min_l by lia.
Qed.

Lemma fade_in_ticks a f w url n :
  audios w !! a = Some {| src := url; volume := 0%Q; paused := false |} →
  audios (Nat.iter n (run_callback (FadeInTick a f)) w) !! a
  = Some {| src := url; volume := step_volume (n `min` 20); paused := false |}.
Proof.
  intros Hw. induction n as [|n IH]; [exact Hw|].
  rewrite Nat.iter_succ, (fade_in_tick a f _ _ (n `min` 20)%nat IH);
    [|reflexivity|lia].
  cbn [src paused]. do 3 f_equal. lia.
Qed.

(** C1.  For a track with a non-empty preview URL whose component holds
    no audio element, [play] creates an element at volume 0 and an
    interval of 100 ms running the fade-in closure.  After [n] runs of
    that closure the volume is the two-decimal number [0.05 * n] up to
    [n = 20] and 1 from then on: it grows strictly for twenty steps,
    is exactly 1 after the twentieth and never exceeds 1. *)
Theorem fade_in_ramp w i st t url :
  hooks w !! i = Some st → audio st = None →
  preview_url t = Some url → url ≠ "" →
  let a := length (audios w) in
  let h := length (timers w) in
  let tick := run_callback (FadeInTick a (fadeIn st)) in
  audios (play t i w) !! a
    = Some {| src := url; volume := 0%Q; paused := false |} ∧
  timers (play t i w) !! h
    = Some {| handler := FadeInTick a (fadeIn st); due := now w + 100;
              period := Some 100; active := true |} ∧
  (∀ n, audios (Nat.iter n tick (play t i w)) !! a
        = Some {| src := url; volume := step_volume (n `min` 20);
                  paused := false |}) ∧
  (∀ n, (n < 20)%nat → (step_volume n < step_volume (S n))%Q) ∧
  step_volume 20 = 1%Q ∧
  (∀ n, (step_volume (n `min` 20) <= 1)%Q).
Proof.
  intros Hst Ha Hp Hne a h tick.
  destruct (play_effect w i st t url Hst Ha (has_preview_Some _ _ Hp Hne))
    as (Hau & Htm & _).
  assert (Hnew : audios (play t i w) !! a
                 = Some {| src := url; volume := 0%Q; paused := false |})
    by (rewrite Hau; apply lookup_snoc_new).
  split_and!.
  - exact Hnew.
  - rewrite Htm. apply lookup_snoc_new.
  - intros n. now apply fade_in_ticks.
  - intros n Hn. now apply louder_table.
  - exact step_volume_full.
  - intros n. apply step_volume_le_1. lia.
Qed.

Lemma fade_in_ramp_witness :
  audios (play (track (sample_track "one" 180000 ["Ada"; "Bo"])) 0
            (mount sample_tracks)) !! O
  = Some {| src := "https://p.scdn.co/mp3-preview/one"; volume := 0%Q;
            paused := false |}.
Proof.
  apply (fade_in_ramp (mount sample_tracks) 0 initial_state
           (track (sample_track "one" 180000 ["Ada"; "Bo"]))
           "https://p.scdn.co/mp3-preview/one").
  - reflexivity.
  - reflexivity.
  - reflexivity.
  - discriminate.
Defined.


(* ===================================================================== *)
(** * Handlers leave the toast log and the flag alone *)
(* ===================================================================== *)

Lemma set_volume_frame a v w :
  toasts (set_volume a v w) = toasts w ∧
  interactableNotified (set_volume a v w) = interactableNotified w ∧
  hooks (set_volume a v w) = hooks w ∧
  promises (set_volume a v w) = promises w ∧
  timers (set_volume a v w) = timers w.
Proof. unfold set_volume. destruct (_ && _); split_and!; reflexivity. Qed.

Lemma run_callback_frame cb w :
  toasts (run_callback cb w) = toasts w ∧
  interactableNotified (run_callback cb w) = interactableNotified w ∧
  hooks (run_callback cb w) = hooks w ∧
  promises (run_callback cb w) = promises w.
Proof.
  destruct cb as [a f|a f|a]; unfold run_callback;
    repeat case_match; try (split_and!; reflexivity);
    match goal with |- context [set_volume ?a ?v ?w] =>
      destruct (set_volume_frame a v w) as (? & ? & ? & ? & ?) end; done.
Qed.

Lemma fire_frame h w :
  toasts (fire h w) = toasts w ∧
  interactableNotified (fire h w) = interactableNotified w ∧
  hooks (fire h w) = hooks w ∧
  promises (fire h w) = promises w.
Proof.
  unfold fire.
  destruct (timers w !! h) as [t|]; [|done].
  destruct (active t); [|done].
  match goal with |- context [run_callback ?cb ?w'] =>
    destruct (run_callback_frame cb w') as (-> & -> & -> & ->) end.
  split_and!; reflexivity.
Qed.

Lemma play_frame t i w :
  toasts (play t i w) = toasts w ∧
  interactableNotified (play t i w) = interactableNotified w.
Proof.
  unfold play. repeat case_match; try (split; reflexivity).
Qed.

Lemma stop_frame i w :
  toasts (stop i w) = toasts w ∧
  interactableNotified (stop i w) = interactableNotified w.
Proof.
  unfold stop. repeat case_match; try (split; reflexivity).
Qed.

(* ===================================================================== *)
(** * Leaving and hovering again *)
(* ===================================================================== *)

(** What [stop] does when the component holds an audio element. *)
Lemma stop_effect w i st a el :
  hooks w !! i = Some st → audio st = Some a → audios w !! a = Some el →
  let cleared := match fadeIn st with
                 | Some h => timers (clearInterval h w)
                 | None => timers w
                 end in
  let w' := stop i w in
  audios w' = audios w ∧
  timers w' = cleared ++
    [{| handler := FadeOutTick a (fadeOut st); due := now w + 100;
        period := Some 100; active := true |};
     {| handler := PauseAudio a;
        due := now w + JsNumber.to_long (pause_delay (volume el));
        period := None; active := true |}] ∧
  length cleared = length (timers w) ∧
  hooks w' = <[i := {| audio := None; fadeIn := fadeIn st;
                       fadeOut := Some (length (timers w));
                       interactable := interactable st |}]> (hooks w) ∧
  promises w' = promises w.
Proof.
  intros Hst Ha Hel. cbv zeta. unfold stop. rewrite Hst, Ha, Hel.
  assert (Hhooks : ∀ l,
    alter (λ s, {| audio := audio s; fadeIn := fadeIn s;
                   fadeOut := Some l; interactable := interactable s |}) i
      (alter (λ s, {| audio := None; fadeIn := fadeIn s; fadeOut := fadeOut s;
                      interactable := interactable s |}) i (hooks w))
    = <[i := {| audio := None; fadeIn := fadeIn st; fadeOut := Some l;
                interactable := interactable st |}]> (hooks w)).
  { intros l. rewrite list_alter_alter_eq.
    apply list_eq. intros j. destruct (decide (i = j)) as [<-|Hne].
    - rewrite list_lookup_alter_eq, list_lookup_insert_eq, Hst
        by (eapply lookup_lt_Some; eauto). reflexivity.
    - now rewrite list_lookup_alter_ne, list_lookup_insert_ne. }
  destruct (fadeIn st) as [h|]; cbn -[alter pause_delay];
    rewrite ?length_alter, <- ?app_assoc, Hhooks; split_and!; reflexivity.
Qed.

Lemma fade_out_tick_keeps a f w b el :
  audios w !! b = Some el →
  ∃ el', audios (run_callback (FadeOutTick a f) w) !! b = Some el' ∧
         src el' = src el ∧ paused el' = paused el.
Proof.
  intros Hb.
  assert (Hset : ∀ v, ∃ el', audios (set_volume a v w) !! b = Some el' ∧
                             src el' = src el ∧ paused el' = paused el).
  { intros v. unfold set_volume. destruct (_ && _); [|eauto].
    cbn [audios with_audios]. rewrite list_lookup_alter.
    destruct (decide (a = b)) as [->|_]; [|eauto].
    rewrite Hb. simpl. eauto. }
  unfold run_callback.
  destruct (audios w !! a) as [ela|]; [|eauto].
  destruct (JsNumber.gtb (volume ela) 0%Q).
  - destruct (quieter (volume ela)); [apply Hset|eauto].
  - destruct f; cbn; eauto.
Qed.

Lemma fade_out_ticks_keep a f w b el n :
  audios w !! b = Some el →
  let w' := Nat.iter n (run_callback (FadeOutTick a f)) w in
  hooks w' = hooks w ∧
  ∃ el', audios w' !! b = Some el' ∧ src el' = src el ∧ paused el' = paused el.
Proof.
  intros Hb. cbv zeta. induction n as [|n (IHh & el1 & IHa & IHs & IHp)].
  - simpl. eauto.
  - rewrite Nat.iter_succ.
    destruct (run_callback_frame (FadeOutTick a f)
                (Nat.iter n (run_callback (FadeOutTick a f)) w))
      as (_ & _ & -> & _).
    split; [done|].
    destruct (fade_out_tick_keeps a f _ b el1 IHa) as (el2 & ? & ? & ?).
    exists el2. split_and!; [done|congruence|congruence].
Qed.

(** C10.  [stop] clears the component's audio reference at once, with
    the element still unpaused and the pause timeout pending.  After any
    number of fade-out steps, [play] on that component creates and starts
    a second element while the first is still unpaused.  A page state with
    two audible elements of the same track is reachable. *)
Theorem rehover_during_fade_out w i st a el t url :
  hooks w !! i = Some st → audio st = Some a →
  audios w !! a = Some el → paused el = false →
  preview_url t = Some url → url ≠ "" →
  (∃ st', hooks (stop i w) !! i = Some st' ∧ audio st' = None) ∧
  audios (stop i w) !! a = Some el ∧
  timers (stop i w) !! S (length (timers w))
    = Some {| handler := PauseAudio a;
              due := now w + JsNumber.to_long (pause_delay (volume el));
              period := None; active := true |} ∧
  (∀ n,
     let fading :=
       Nat.iter n (run_callback (FadeOutTick a (fadeOut st))) (stop i w) in
     let again := play t i fading in
     let new := length (audios fading) in
     new ≠ a ∧
     (∃ el', audios again !! a = Some el' ∧ src el' = src el
             ∧ paused el' = false) ∧
     audios again !! new
       = Some {| src := url; volume := 0%Q; paused := false |} ∧
     (∃ st', hooks again !! i = Some st' ∧ audio st' = Some new)) ∧
  (∃ w', reachable sample_tracks w' ∧
         audible w' 0 = true ∧ audible w' 1 = true ∧
         src <$> audios w' !! O = src <$> audios w' !! 1%nat).
Proof.
  intros Hst Ha Hel Hp Hurl Hne.
  destruct (stop_effect w i st a el Hst Ha Hel) as (Hau & Htm & Hlen & Hh & _).
  assert (Hi : (i < length (hooks w))%nat) by (eapply lookup_lt_Some; eauto).
  split_and!.
  - eexists. rewrite Hh, list_lookup_insert_eq by done. split; reflexivity.
  - now rewrite Hau.
  - rewrite Htm, lookup_app_r by lia. now rewrite Hlen, Nat.sub_succ_l, Nat.sub_diag.
  - intros n fading again new.
    assert (Hel1 : audios (stop i w) !! a = Some el) by now rewrite Hau.
    destruct (fade_out_ticks_keep a (fadeOut st) (stop i w) a el n Hel1)
      as (Hh2 & el2 & Hel2 & Hs2 & Hp2).
    fold fading in Hh2, Hel2.
    assert (Hst2 : hooks fading !! i
                   = Some {| audio := None; fadeIn := fadeIn st;
                             fadeOut := Some (length (timers w));
                             interactable := interactable st |})
      by (rewrite Hh2, Hh; now apply list_lookup_insert_eq).
    destruct (play_effect fading i _ t url Hst2 eq_refl
                (has_preview_Some _ _ Hurl Hne)) as (Hau3 & _ & _ & _ & _ & _ & Hh3).
    fold again in Hau3, Hh3. fold new in Hau3, Hh3.
    assert (Hlt : (a < new)%nat) by (eapply lookup_lt_Some; eauto).
    split_and!.
    + lia.
    + exists el2. rewrite Hau3, lookup_app_l by done.
      split_and!; [done|done|congruence].
    + rewrite Hau3. apply lookup_snoc_new.
    + eexists. rewrite Hh3, list_lookup_insert_eq; [done|].
      rewrite Hh2, Hh, length_insert. done.
  - destruct (run sample_tracks rehover_session (mount sample_tracks))
      as [w'|] eqn:Hrun; [|vm_compute in Hrun; discriminate].
    exists w'. split; [by exists rehover_session|].
    vm_compute in Hrun. injection Hrun as <-.
    split_and!; vm_compute; reflexivity.
Qed.

Lemma rehover_during_fade_out_witness :
  audios (stop 0 hovering) !! O
  = Some {| src := "https://p.scdn.co/mp3-preview/one"; volume := 0%Q;
            paused := false |}.
Proof.
  apply (rehover_during_fade_out hovering 0
           {| audio := Some O; fadeIn := Some O; fadeOut := None;
              interactable := true |}
           O
           {| src := "https://p.scdn.co/mp3-preview/one"; volume := 0%Q;
              paused := false |}
           (track (sample_track "one" 180000 ["Ada"; "Bo"]))
           "https://p.scdn.co/mp3-preview/one").
  - vm_compute. reflexivity.
  - reflexivity.
  - vm_compute. reflexivity.
  - reflexivity.
  - reflexivity.
  - discriminate.
Defined.


(** The fade-in closure clears the handle it captured, which is the one
    the state variable held before [play] stored the new timer. *)
Lemma fade_in_tick_spares h a f w t :
  f ≠ Some h → timers w !! h = Some t →
  timers (run_callback (FadeInTick a f) w) !! h = Some t.
Proof.
  intros Hf Ht. unfold run_callback.
  destruct (audios w !! a) as [el|]; [|exact Ht].
  destruct (JsNumber.ltb (volume el) 1%Q).
  - destruct (louder (volume el)) as [v|]; [|exact Ht].
    destruct (set_volume_frame a v w) as (_ & _ & _ & _ & ->). exact Ht.
  - destruct f as [h'|]; [|exact Ht].
    cbn [clearInterval timers with_timers].
    rewrite list_lookup_alter_ne by congruence. exact Ht.
Qed.

Lemma run_callback_timers_length cb w :
  length (timers (run_callback cb w)) = length (timers w).
Proof.
  destruct cb as [a f|a f|a]; unfold run_callback;
    repeat case_match; try reflexivity;
    try (match goal with |- context [set_volume ?a ?v ?w] =>
           destruct (set_volume_frame a v w) as (_ & _ & _ & _ & ->) end;
         reflexivity);
    cbn [clearInterval timers with_timers]; apply length_alter.
Qed.

Lemma play_handles t i w : handles_in_range w → handles_in_range (play t i w).
Proof.
  intros Hw.
  destruct (hooks w !! i) as [st|] eqn:Hst;
    [|unfold play; now rewrite Hst].
  destruct (audio st) as [a|] eqn:Ha;
    [unfold play; now rewrite Hst, Ha|].
  destruct (has_preview t) as [url|] eqn:Hp;
    [|unfold play; now rewrite Hst, Ha, Hp].
  destruct (play_effect w i st t url Hst Ha Hp) as (_ & Htm & _ & _ & _ & _ & Hh).
  intros j st' Hj. rewrite Htm, length_app. cbn [length].
  rewrite Hh in Hj.
  destruct (decide (i = j)) as [<-|Hne].
  - rewrite list_lookup_insert_eq in Hj by (eapply lookup_lt_Some; eauto).
    injection Hj as <-. cbn. destruct (Hw i st Hst) as [_ Ho].
    split; intros h Hh'; [injection Hh' as <-; lia|].
    specialize (Ho h Hh'). lia.
  - rewrite list_lookup_insert_ne in Hj by done.
    destruct (Hw j st' Hj) as [Hi Ho].
    split; intros h Hh'; [specialize (Hi h Hh')|specialize (Ho h Hh')]; lia.
Qed.

Lemma stop_handles i w : handles_in_range w → handles_in_range (stop i w).
Proof.
  intros Hw.
  destruct (hooks w !! i) as [st|] eqn:Hst;
    [|unfold stop; now rewrite Hst].
  destruct (audio st) as [a|] eqn:Ha;
    [|unfold stop; now rewrite Hst, Ha].
  destruct (audios w !! a) as [el|] eqn:Hel;
    [|unfold stop; now rewrite Hst, Ha, Hel].
  destruct (stop_effect w i st a el Hst Ha Hel) as (_ & Htm & Hlen & Hh & _).
  intros j st' Hj. rewrite Htm, length_app, Hlen. cbn [length].
  rewrite Hh in Hj.
  destruct (decide (i = j)) as [<-|Hne].
  - rewrite list_lookup_insert_eq in Hj by (eapply lookup_lt_Some; eauto).
    injection Hj as <-. cbn. destruct (Hw i st Hst) as [Hi _].
    split; intros h Hh'; [|injection Hh' as <-; lia].
    specialize (Hi h Hh'). lia.
  - rewrite list_lookup_insert_ne in Hj by done.
    destruct (Hw j st' Hj) as [Hi Ho].
    split; intros h Hh'; [specialize (Hi h Hh')|specialize (Ho h Hh')]; lia.
Qed.

Lemma fire_handles h w : handles_in_range w → handles_in_range (fire h w).
Proof.
  intros Hw j st Hj.
  destruct (fire_frame h w) as (_ & _ & Hh & _). rewrite Hh in Hj.
  assert (Hlen : length (timers (fire h w)) = length (timers w)).
  { unfold fire. destruct (timers w !! h) as [t|]; [|done].
    destruct (active t); [|done].
    rewrite run_callback_timers_length. cbn [timers with_timers with_now].
    apply length_insert. }
  rewrite Hlen. exact (Hw j st Hj).
Qed.

Lemma settle_handles k o w w' :
  settle k o w = Some w' → handles_in_range w → handles_in_range w'.
Proof.
  unfold settle. intros Hs Hw.
  destruct (promises w !! k) as [p|]; [|done].
  destruct (p_outcome p); [done|]. injection Hs as <-.
  assert (Hgen : ∀ w0 b, timers w0 = timers w →
            (hooks w0 = hooks w ∨
             hooks w0 = alter (λ st, {| audio := audio st; fadeIn := fadeIn st;
                                        fadeOut := fadeOut st;
                                        interactable := b |})
                          (p_track p) (hooks w)) →
            handles_in_range w0).
  { intros w0 b Ht [Hh|Hh] j st Hj; rewrite Ht; rewrite Hh in Hj.
    - exact (Hw j st Hj).
    - rewrite list_lookup_alter in Hj.
      destruct (decide (p_track p = j)) as [<-|_]; [|exact (Hw j st Hj)].
      destruct (hooks w !! p_track p) as [st0|] eqn:H0; [|done].
      injection Hj as <-. cbn. exact (Hw (p_track p) st0 H0). }
  destruct o as [|error].
  - unfold on_fulfilled. destruct (p_interactableNotified p);
      apply (Hgen _ true); try reflexivity; right; reflexivity.
  - unfold on_rejected. repeat case_match;
      apply (Hgen _ true); try reflexivity; left; reflexivity.
Qed.

(** In every reachable state of the page the hook state only holds
    handles of timers that exist. *)
Lemma reachable_handles tracks w : reachable tracks w → handles_in_range w.
Proof.
  intros [es Hrun].
  assert (H0 : handles_in_range (mount tracks)).
  { intros i st Hi. cbn in Hi. rewrite list_lookup_fmap in Hi.
    destruct (tracks !! i); [|done]. injection Hi as <-. split; done. }
  revert Hrun H0. generalize (mount tracks) as w0.
  induction es as [|e es IH]; intros w0 Hrun H0.
  - now injection Hrun as <-.
  - cbn [run] in Hrun. destruct (exec tracks e w0) as [w1|] eqn:He; [|done].
    apply (IH w1 Hrun).
    destruct e as [at_ms i|at_ms i|at_ms i|at_ms i|k o|]; cbn [exec] in He.
    + unfold hover in He. repeat case_match; simplify_eq.
      apply play_handles. exact H0.
    + unfold hover in He. repeat case_match; simplify_eq.
      apply play_handles. exact H0.
    + unfold leave in He. case_match; simplify_eq. apply stop_handles. exact H0.
    + unfold leave in He. case_match; simplify_eq. apply stop_handles. exact H0.
    + eapply settle_handles; eauto.
    + destruct (next_timer w0) as [h|]; [|done]. injection He as <-.
      now apply fire_handles.
Qed.

(** Hence the handle a fade-in closure captured is never that of its own
    interval: however often it runs, the interval stays active. *)
Lemma fade_in_never_clears_itself tracks w i st t url n :
  reachable tracks w →
  hooks w !! i = Some st → audio st = None → has_preview t = Some url →
  ∃ tm, timers (Nat.iter n (run_callback (FadeInTick (length (audios w))
                                            (fadeIn st)))
                  (play t i w)) !! length (timers w) = Some tm ∧
        handler tm = FadeInTick (length (audios w)) (fadeIn st) ∧
        active tm = true.
Proof.
  intros Hr Hst Ha Hp.
  destruct (reachable_handles tracks w Hr i st Hst) as [Hi _].
  destruct (play_effect w i st t url Hst Ha Hp) as (_ & Htm & _).
  assert (Hf : fadeIn st ≠ Some (length (timers w))).
  { intros Heq. specialize (Hi _ Heq). lia. }
  exists {| handler := FadeInTick (length (audios w)) (fadeIn st);
            due := now w + 100; period := Some 100; active := true |}.
  split; [|split; reflexivity].
  induction n as [|n IH].
  - unfold Nat.iter. cbn [nat_rect]. rewrite Htm. apply lookup_snoc_new.
  - rewrite Nat.iter_succ. now apply fade_in_tick_spares.
Qed.

(** On the clock of the page the ramp takes two seconds: the twentieth
    tick runs at 2000 ms and brings the volume to 1. *)
Lemma fade_in_takes_two_seconds :
  ∃ w,
    run sample_tracks ([MouseOver 0 0; Settle 0 Fulfilled] ++ replicate 20 Fire)
      (mount sample_tracks) = Some w ∧
    now w = 2000 ∧
    volume <$> audios w !! O = Some 1%Q.
Proof.
  eexists. split; [vm_compute; reflexivity|].
  split; vm_compute; reflexivity.
Qed.

(** C2, evaluated on the code.  On the first hover the closure captured
    no handle: after twenty-five ticks the volume has been 1 for half a
    second and the interval is still active, due again at 2600 ms. *)
Theorem fade_in_timer_left_running :
  ∃ w,
    run sample_tracks long_hover_session (mount sample_tracks) = Some w ∧
    now w = 2500 ∧
    volume <$> audios w !! O = Some 1%Q ∧
    timers w !! O = Some {| handler := FadeInTick 0 None; due := 2600;
                            period := Some 100; active := true |}.
Proof.
  eexists. split; [vm_compute; reflexivity|].
  split_and!; vm_compute; reflexivity.
Qed.

(** C3, evaluated on the code.  At volume 0.15 the ramp needs three
    steps to reach zero, and the delay computed for the pause is below
    300 ms, 299 as the timer takes it: leaving at 350 ms, the element is
    paused at 649 ms with its volume still at 0.05. *)
Theorem pause_precedes_last_fade_step :
  ticks_to_silence 20 (step_volume 3) = Some 3%nat ∧
  (pause_delay (step_volume 3) < 300)%Q ∧
  JsNumber.to_long (pause_delay (step_volume 3)) = 299 ∧
  ∃ w,
    run sample_tracks short_hover_session (mount sample_tracks) = Some w ∧
    now w = 649 ∧
    audios w !! O
    = Some {| src := "https://p.scdn.co/mp3-preview/one";
              volume := step_volume 1; paused := true |}.
Proof.
  split_and!; [vm_compute; reflexivity..|].
  eexists. split; [vm_compute; reflexivity|].
  split_and!; vm_compute; reflexivity.
Qed.


(* ===================================================================== *)
(** * Runs of the page: induction and frames *)
(* ===================================================================== *)

Lemma settle_frame k o w w' :
  settle k o w = Some w' →
  audios w' = audios w ∧ timers w' = timers w ∧
  ∃ p, promises w !! k = Some p ∧ p_outcome p = None ∧
       promises w' = alter (λ q, {| p_audio := p_audio q; p_track := p_track q;
                                    p_interactableNotified :=
                                      p_interactableNotified q;
                                    p_outcome := Some o |}) k (promises w) ∧
       ((∃ error, o = Rejected error) ∧ hooks w' = hooks w ∨
        o = Fulfilled ∧
        hooks w' = alter (λ st, {| audio := audio st; fadeIn := fadeIn st;
                                   fadeOut := fadeOut st;
                                   interactable := true |})
                     (p_track p) (hooks w)).
Proof.
  unfold settle. intros Hs.
  destruct (promises w !! k) as [p|]; [|done].
  destruct (p_outcome p) eqn:Ho; [done|]. injection Hs as <-.
  destruct o as [|error].
  - unfold on_fulfilled. destruct (p_interactableNotified p);
      (split_and!; [reflexivity|reflexivity|]);
      exists p; split_and!; try done; right; done.
  - unfold on_rejected. repeat case_match;
      (split_and!; [reflexivity|reflexivity|]);
      exists p; split_and!; try done; left; eauto.
Qed.

(** Induction on the runs of the page. *)
Lemma run_invariant (tracks : list SpotifyTrack) (P : World → Prop) :
  P (mount tracks) →
  (∀ w at_ms i t, P w → tracks !! i = Some t →
     P (play (track t) i (with_now at_ms w))) →
  (∀ w at_ms i, P w → P (stop i (with_now at_ms w))) →
  (∀ w k o w', P w → settle k o w = Some w' → P w') →
  (∀ w h, P w → P (fire h w)) →
  ∀ es w, run tracks es (mount tracks) = Some w → P w.
Proof.
  intros H0 Hplay Hstop Hsettle Hfire es.
  revert H0. generalize (mount tracks) as w0.
  induction es as [|e es IH]; intros w0 H0 w Hrun.
  - now injection Hrun as <-.
  - cbn [run] in Hrun. destruct (exec tracks e w0) as [w1|] eqn:He; [|done].
    apply (IH w1); [|exact Hrun].
    destruct e as [at_ms i|at_ms i|at_ms i|at_ms i|k o|]; cbn [exec] in He.
    + unfold hover in He. repeat case_match; simplify_eq. now apply Hplay.
    + unfold hover in He. repeat case_match; simplify_eq. now apply Hplay.
    + unfold leave in He. case_match; simplify_eq. now apply Hstop.
    + unfold leave in He. case_match; simplify_eq. now apply Hstop.
    + eapply Hsettle; eauto.
    + destruct (next_timer w0) as [h|]; [|done]. injection He as <-.
      now apply Hfire.
Qed.

(** [play] either leaves the page alone or takes the effect described by
    [play_effect]. *)
Lemma play_cases t i w :
  play t i w = w ∨
  ∃ st url, hooks w !! i = Some st ∧ audio st = None ∧ has_preview t = Some url.
Proof.
  unfold play. destruct (hooks w !! i) as [st|]; [|now left].
  destruct (audio st) eqn:Ha; [now left|].
  destruct (has_preview t) as [url|]; [|now left].
  right. eauto.
Qed.

Lemma stop_cases i w :
  stop i w = w ∨
  ∃ st a el, hooks w !! i = Some st ∧ audio st = Some a ∧ audios w !! a = Some el.
Proof.
  unfold stop. destruct (hooks w !! i) as [st|]; [|now left].
  destruct (audio st) as [a|] eqn:Ha; [|now left].
  destruct (audios w !! a) as [el|] eqn:Hel; [|now left].
  right. eauto 10.
Qed.

(* ===================================================================== *)
(** * Playback failures *)
(* ===================================================================== *)

Lemma spaced_snoc armed ts x :
  spaced armed (ts ++ [x]) = spaced armed ts && spaced (armed_after armed ts) [x].
Proof.
  revert armed. induction ts as [|t ts IH]; intros armed; simpl.
  - reflexivity.
  - destruct t; rewrite IH; [now rewrite andb_assoc|done|done].
Qed.

Lemma armed_after_snoc armed ts x :
  armed_after armed (ts ++ [x]) = armed_after (armed_after armed ts) [x].
Proof.
  revert armed. induction ts as [|t ts IH]; intros armed; simpl; [done|].
  destruct t; apply IH.
Qed.

Lemma on_fulfilled_log p w :
  flag_tracks_log w → flag_tracks_log (on_fulfilled p w).
Proof.
  intros [Hs Ha]. unfold on_fulfilled, flag_tracks_log.
  destruct (p_interactableNotified p); cbn.
  - rewrite spaced_snoc, armed_after_snoc, Hs. done.
  - done.
Qed.

Lemma on_rejected_log p error w :
  (not_allowed error = true →
   p_interactableNotified p = interactableNotified w) →
  flag_tracks_log w → flag_tracks_log (on_rejected p error w).
Proof.
  intros Hp [Hs Ha]. unfold on_rejected, flag_tracks_log.
  unfold not_allowed in Hp.
  destruct (JsString.includes phrase_no_interaction _).
  - destruct (p_interactableNotified p) eqn:Hc; cbn; [done|].
    rewrite spaced_snoc, armed_after_snoc, Hs, Ha, <- Hp by done. done.
  - destruct (JsString.includes phrase_interrupted _); cbn; [done|].
    rewrite spaced_snoc, armed_after_snoc, Hs, Ha. done.
Qed.

Lemma exec_log tracks e w w' :
  blocked_in_step tracks [e] w = true → exec tracks e w = Some w' →
  flag_tracks_log w → flag_tracks_log w'.
Proof.
  unfold flag_tracks_log.
  intros Hin He Hw. destruct e as [at_ms i|at_ms i|at_ms i|at_ms i|k o|];
    cbn [exec] in He.
  - unfold hover in He. repeat case_match; simplify_eq.
    destruct (play_frame (track s) i (with_now at_ms w)) as [-> ->]. exact Hw.
  - unfold hover in He. repeat case_match; simplify_eq.
    destruct (play_frame (track s) i (with_now at_ms w)) as [-> ->]. exact Hw.
  - unfold leave in He. case_match; simplify_eq.
    destruct (stop_frame i (with_now at_ms w)) as [-> ->]. exact Hw.
  - unfold leave in He. case_match; simplify_eq.
    destruct (stop_frame i (with_now at_ms w)) as [-> ->]. exact Hw.
  - cbn [blocked_in_step] in Hin. unfold settle in He.
    destruct (promises w !! k) as [p|] eqn:Hp; [|done].
    destruct (p_outcome p); [done|].
    injection He as <-.
    destruct o as [|error]; [now apply on_fulfilled_log|].
    apply on_rejected_log; [|done].
    intros Hno. apply andb_true_iff in Hin as [Hin _].
    rewrite Hno in Hin. now apply bool_decide_eq_true in Hin.
  - destruct (next_timer w) as [h|]; [|done]. injection He as <-.
    destruct (fire_frame h w) as (-> & -> & _). exact Hw.
Qed.

Lemma run_log tracks es w w' :
  blocked_in_step tracks es w = true → run tracks es w = Some w' →
  flag_tracks_log w → flag_tracks_log w'.
Proof.
  revert w. induction es as [|e es IH]; intros w Hin Hrun Hw.
  - now injection Hrun as <-.
  - cbn [run] in Hrun. destruct (exec tracks e w) as [w1|] eqn:He; [|done].
    cbn [blocked_in_step] in Hin. rewrite He in Hin.
    apply andb_true_iff in Hin as [Hin1 Hin2].
    apply (IH w1 Hin2 Hrun).
    apply (exec_log tracks e w w1); [|done|done].
    cbn [blocked_in_step]. rewrite Hin1, He. done.
Qed.

(** The promise a step makes carries the flag as the step leaves it. *)
Lemma exec_made tracks e w w' k :
  exec tracks e w = Some w' → made w w' = Some k →
  ∃ p, promises w' !! k = Some p ∧
       p_interactableNotified p = interactableNotified w'.
Proof.
  unfold made. intros He Hm.
  destruct (Nat.ltb_spec (length (promises w)) (length (promises w')))
    as [Hlt|]; [|done].
  injection Hm as <-.
  assert (Hplay : ∀ t i at_ms, w' = play t i (with_now at_ms w) →
            ∃ p, promises w' !! length (promises w) = Some p ∧
                 p_interactableNotified p = interactableNotified w').
  { intros t i at_ms ->.
    destruct (play_cases t i (with_now at_ms w))
      as [Heq|(st & url & Hst & Ha & Hp)].
    - rewrite Heq in Hlt. cbn in Hlt. lia.
    - destruct (play_effect _ i st t url Hst Ha Hp)
        as (_ & _ & -> & _ & -> & _).
      eexists. split; [apply lookup_snoc_new|reflexivity]. }
  assert (Hstop : ∀ i at_ms, w' = stop i (with_now at_ms w) → False).
  { intros i at_ms ->.
    destruct (stop_cases i (with_now at_ms w))
      as [Heq|(st & a & el & Hst & Ha & Hel)].
    - rewrite Heq in Hlt. cbn in Hlt. lia.
    - destruct (stop_effect _ i st a el Hst Ha Hel) as (_ & _ & _ & _ & Hp).
      rewrite Hp in Hlt. cbn in Hlt. lia. }
  destruct e as [at_ms i|at_ms i|at_ms i|at_ms i|k o|]; cbn [exec] in He.
  - unfold hover in He. repeat case_match; simplify_eq. eapply Hplay; eauto.
  - unfold hover in He. repeat case_match; simplify_eq. eapply Hplay; eauto.
  - unfold leave in He. case_match; simplify_eq. exfalso. eapply Hstop; eauto.
  - unfold leave in He. case_match; simplify_eq. exfalso. eapply Hstop; eauto.
  - destruct (settle_frame k o w w' He) as (_ & _ & p & _ & _ & Hp & _).
    rewrite Hp, length_alter in Hlt. lia.
  - destruct (next_timer w) as [h|]; [|done]. injection He as <-.
    destruct (fire_frame h w) as (_ & _ & _ & Hp).
    rewrite Hp in Hlt. lia.
Qed.

(** A rejection that comes at once finds the flag as its closure
    captured it. *)
Lemma at_once_in_step tracks es last w :
  (∀ k, last = Some k →
     ∃ p, promises w !! k = Some p ∧
          p_interactableNotified p = interactableNotified w) →
  blocked_at_once tracks last es w = true →
  blocked_in_step tracks es w = true.
Proof.
  revert last w. induction es as [|e es IH]; intros last w Hlast Hat; [done|].
  cbn [blocked_at_once] in Hat. cbn [blocked_in_step].
  apply andb_true_iff in Hat as [Hnow Hrest]. apply andb_true_iff. split.
  - destruct e as [| | | |k [|error]|]; try done.
    destruct (promises w !! k) as [p|] eqn:Hp; [|done].
    destruct (not_allowed error); [|done]. cbn in Hnow |- *.
    apply bool_decide_eq_true in Hnow.
    destruct (Hlast k Hnow) as (p' & Hp' & Hflag).
    apply bool_decide_eq_true. congruence.
  - destruct (exec tracks e w) as [w'|] eqn:He; [|done].
    apply (IH (made w w') w'); [|exact Hrest].
    intros k Hk. exact (exec_made tracks e w w' k He Hk).
Qed.

Lemma blocked_in_step_last tracks es e w0 w :
  run tracks es w0 = Some w →
  blocked_in_step tracks (es ++ [e]) w0 = true →
  blocked_in_step tracks [e] w = true.
Proof.
  revert w0. induction es as [|e0 es IH]; intros w0 Hrun Hin.
  - now injection Hrun as <-.
  - cbn [run] in Hrun. destruct (exec tracks e0 w0) as [w1|] eqn:He; [|done].
    cbn [app blocked_in_step] in Hin. rewrite He in Hin.
    apply andb_true_iff in Hin as [_ Hin]. now apply (IH w1).
Qed.

(** A rejection of a [play()] that was not allowed, arriving in step:
    the instruction toast is shown exactly when the global flag is unset,
    and the flag is set afterwards. *)
Lemma settle_not_allowed tracks k error w w' :
  blocked_in_step tracks [Settle k (Rejected error)] w = true →
  not_allowed error = true →
  settle k (Rejected error) w = Some w' →
  toasts w' = toasts w ++ (if interactableNotified w then []
                           else [toast_plain msg_click_anywhere]) ∧
  interactableNotified w' = true.
Proof.
  intros Hin Hno Hs. cbn [blocked_in_step] in Hin. unfold settle in Hs.
  destruct (promises w !! k) as [p|]; [|done].
  destruct (p_outcome p); [done|]. injection Hs as <-.
  apply andb_true_iff in Hin as [Hin _]. rewrite Hno in Hin.
  apply bool_decide_eq_true in Hin.
  unfold on_rejected. unfold not_allowed in Hno. rewrite Hno, Hin.
  destruct (interactableNotified w) eqn:Hflag; cbn.
  - now rewrite app_nil_r.
  - done.
Qed.

(** C4.  A rejection whose message has the no-interaction phrase shows
    the instruction toast and sets the global flag when the flag, as the
    closure holds it, is unset, and does nothing otherwise.  A rejection
    without that phrase whose message has the interrupted-by-pause phrase
    does nothing.  Any other rejection adds an error toast with the
    message and changes nothing else.  A fulfilled promise marks the
    component interactable and, when the flag is set, shows the success
    toast and clears the flag.  A [play()] that is not allowed returns a
    promise that is already rejected, so its rejection is handled before
    any other event: in such a run the closure holds the flag as it is
    when the rejection arrives, so the instruction toast is shown exactly
    when the global flag is unset and the flag is set afterwards, and the
    instruction toast is never shown twice without a success toast in
    between, across all tracks. *)
Theorem rejection_handling :
  (∀ p error w,
     JsString.includes phrase_no_interaction (message_of error) = true →
     on_rejected p error w
     = if p_interactableNotified p then w
       else with_interactableNotified true
              (add_toast (toast_plain msg_click_anywhere) w)) ∧
  (∀ p error w,
     JsString.includes phrase_no_interaction (message_of error) = false →
     JsString.includes phrase_interrupted (message_of error) = true →
     on_rejected p error w = w) ∧
  (∀ p error w,
     JsString.includes phrase_no_interaction (message_of error) = false →
     JsString.includes phrase_interrupted (message_of error) = false →
     on_rejected p error w = add_toast (toast_error (message_of error)) w) ∧
  (∀ p w,
     on_fulfilled p w
     = if p_interactableNotified p
       then add_toast (toast_success msg_good_to_go)
              (with_interactableNotified false
                 (setInteractable (p_track p) true w))
       else setInteractable (p_track p) true w) ∧
  (∀ tracks es,
     blocked_at_once tracks None es (mount tracks) = true →
     blocked_in_step tracks es (mount tracks) = true) ∧
  (∀ tracks es k error w w',
     run tracks es (mount tracks) = Some w →
     blocked_in_step tracks (es ++ [Settle k (Rejected error)])
       (mount tracks) = true →
     JsString.includes phrase_no_interaction (message_of error) = true →
     settle k (Rejected error) w = Some w' →
     toasts w' = toasts w ++ (if interactableNotified w then []
                              else [toast_plain msg_click_anywhere]) ∧
     interactableNotified w' = true) ∧
  (∀ tracks es w,
     run tracks es (mount tracks) = Some w →
     blocked_in_step tracks es (mount tracks) = true →
     spaced false (toasts w) = true ∧
     interactableNotified w = armed_after false (toasts w)).
Proof.
  split_and!.
  - intros p error w H. unfold on_rejected. rewrite H.
    now destruct (p_interactableNotified p).
  - intros p error w H1 H2. unfold on_rejected. now rewrite H1, H2.
  - intros p error w H1 H2. unfold on_rejected. now rewrite H1, H2.
  - reflexivity.
  - intros tracks es. now apply at_once_in_step.
  - intros tracks es k error w w' Hrun Hin Hno Hs.
    apply (settle_not_allowed tracks k error w w'); [|exact Hno|exact Hs].
    exact (blocked_in_step_last tracks es _ _ w Hrun Hin).
  - intros tracks es w Hrun Hin.
    destruct (run_log tracks es (mount tracks) w Hin Hrun) as [? ?]; [done|done].
Qed.

Lemma rejection_handling_witness :
  toasts (on_rejected
            {| p_audio := O; p_track := O; p_interactableNotified := false;
               p_outcome := None |}
            (ErrorObject "The element has no supported sources.")
            (mount sample_tracks))
  = [toast_error "The element has no supported sources."] ∧
  match run sample_tracks sample_session (mount sample_tracks) with
  | Some w => spaced false (toasts w) = true
  | None => False
  end.
Proof.
  destruct rejection_handling as (_ & _ & Herror & _ & Honce & _ & Hlog).
  split.
  - rewrite Herror; reflexivity.
  - destruct (run sample_tracks sample_session (mount sample_tracks))
      as [w|] eqn:Hrun; [|vm_compute in Hrun; discriminate].
    apply (Hlog sample_tracks sample_session w Hrun).
    apply Honce. vm_compute. reflexivity.
Defined.

(** Why the rejection has to come at once: were a [play()] that is not
    allowed left pending while another row is entered, both closures would
    hold an unset flag and the instruction toast would be shown for
    each. *)
Lemma stale_flag_repeats_instruction :
  ∃ w, run sample_tracks
         [Focus 0 0; MouseOver 5 1; Settle 0 blocked; Settle 1 blocked]
         (mount sample_tracks) = Some w ∧
       toasts w = [toast_plain msg_click_anywhere; toast_plain msg_click_anywhere].
Proof. eexists. split; vm_compute; reflexivity. Qed.

(* ===================================================================== *)
(** * What the timers do to the elements *)
(* ===================================================================== *)

(** A timer closure keeps every element in place, with its source and
    its paused flag or the pause it asks for; the volume stays or moves
    one step along the ramp. *)
Lemma run_callback_element cb w b el' :
  audios (run_callback cb w) !! b = Some el' →
  ∃ el, audios w !! b = Some el ∧ src el' = src el ∧
        (volume el' = volume el ∨
         JsNumber.ltb (volume el) 1%Q = true ∧
           louder (volume el) = Some (volume el') ∨
         JsNumber.gtb (volume el) 0%Q = true ∧
           quieter (volume el) = Some (volume el')).
Proof.
  assert (Hset : ∀ a v, audios (set_volume a v w) !! b = Some el' →
            ∃ el, audios w !! b = Some el ∧ src el' = src el ∧
                  (volume el' = volume el ∨ (a = b ∧ volume el' = v))).
  { intros a v. unfold set_volume. destruct (_ && _); [|eauto].
    cbn [audios with_audios]. rewrite list_lookup_alter.
    destruct (decide (a = b)) as [->|_]; [|eauto].
    destruct (audios w !! b) as [el|]; [|done].
    intros [= <-]. exists el. cbn. eauto. }
  destruct cb as [a f|a f|a]; unfold run_callback.
  - destruct (audios w !! a) as [ela|] eqn:Ha; [|eauto].
    destruct (JsNumber.ltb (volume ela) 1%Q) eqn:Hlt.
    + destruct (louder (volume ela)) as [v|] eqn:Hl; [|eauto].
      intros (el & Hb & Hs & [Hv|[-> Hv]])%Hset; exists el;
        split_and!; try done; [now left|].
      rewrite Ha in Hb. injection Hb as <-. right. left. now rewrite Hv.
    + destruct f; cbn; eauto.
  - destruct (audios w !! a) as [ela|] eqn:Ha; [|eauto].
    destruct (JsNumber.gtb (volume ela) 0%Q) eqn:Hgt.
    + destruct (quieter (volume ela)) as [v|] eqn:Hl; [|eauto].
      intros (el & Hb & Hs & [Hv|[-> Hv]])%Hset; exists el;
        split_and!; try done; [now left|].
      rewrite Ha in Hb. injection Hb as <-. right. right. now rewrite Hv.
    + destruct f; cbn; eauto.
  - cbn [set_paused audios with_audios]. rewrite list_lookup_alter.
    destruct (decide (a = b)) as [->|_]; [|eauto].
    destruct (audios w !! b) as [el|]; [|done].
    intros [= <-]. exists el. cbn. eauto.
Qed.

Lemma fire_element h w b el' :
  audios (fire h w) !! b = Some el' →
  ∃ el, audios w !! b = Some el ∧ src el' = src el ∧
        (volume el' = volume el ∨
         JsNumber.ltb (volume el) 1%Q = true ∧
           louder (volume el) = Some (volume el') ∨
         JsNumber.gtb (volume el) 0%Q = true ∧
           quieter (volume el) = Some (volume el')).
Proof.
  unfold fire. destruct (timers w !! h) as [t|]; [|eauto].
  destruct (active t); [|eauto].
  intros H%run_callback_element. exact H.
Qed.

Lemma quieter_table k :
  (0 < k ≤ 20)%nat →
  JsNumber.gtb (step_volume k) 0%Q = true ∧
  quieter (step_volume k) = Some (step_volume (k - 1)).
Proof.
  intros [Hk Hk']. destruct k as [|k]; [lia|].
  do 20 (destruct k as [|k]; [vm_compute; auto|]). lia.
Qed.

Lemma ramp_up v v' :
  on_the_ramp v → JsNumber.ltb v 1%Q = true → louder v = Some v' →
  on_the_ramp v'.
Proof.
  intros (k & Hk & ->) Hlt Hl.
  destruct (decide (k = 20%nat)) as [->|Hne].
  - rewrite step_volume_full in Hlt. vm_compute in Hlt. discriminate.
  - destruct (louder_table k) as (_ & Hl' & _); [lia|].
    rewrite Hl' in Hl. injection Hl as <-. exists (S k). split; [lia|done].
Qed.

Lemma ramp_down v v' :
  on_the_ramp v → JsNumber.gtb v 0%Q = true → quieter v = Some v' →
  on_the_ramp v'.
Proof.
  intros (k & Hk & ->) Hgt Hq.
  destruct (decide (k = 0%nat)) as [->|Hne].
  - vm_compute in Hgt. discriminate.
  - destruct (quieter_table k) as (_ & Hq'); [lia|].
    rewrite Hq' in Hq. injection Hq as <-. exists (k - 1)%nat. split; [lia|done].
Qed.

(** X1. In every state the page can reach, the volume of every audio
    element is one of the 21 ramp values 0, 0.05, ..., 1 as the code
    computes them, and so lies between 0 and 1: neither ramp ever assigns
    a volume outside the range an audio element accepts. *)
Theorem volumes_stay_on_the_ramp tracks es w a el :
  run tracks es (mount tracks) = Some w →
  audios w !! a = Some el →
  on_the_ramp (volume el) ∧ (0 <= volume el <= 1)%Q.
Proof.
  intros Hrun Hel.
  assert (Hramp : on_the_ramp (volume el)).
  { revert a el Hel.
    apply (run_invariant tracks
             (λ w, ∀ a el, audios w !! a = Some el → on_the_ramp (volume el)))
      with (es := es); [| | | | |exact Hrun].
    - intros a el. cbn. now rewrite lookup_nil.
    - intros w0 at_ms i t IH _ a el.
      destruct (play_cases (track t) i (with_now at_ms w0))
        as [->|(st & url & Hst & Ha & Hp)]; [apply IH|].
      destruct (play_effect _ i st (track t) url Hst Ha Hp) as (-> & _).
      intros [Hin|[_ Hnew]]%lookup_app_Some; [now apply (IH a)|].
      destruct (a - _)%nat; [|done]. injection Hnew as <-.
      exists 0%nat. split; [lia|reflexivity].
    - intros w0 at_ms i IH a el.
      destruct (stop_cases i (with_now at_ms w0))
        as [->|(st & a0 & el0 & Hst & Ha & Hel0)]; [apply IH|].
      destruct (stop_effect _ i st a0 el0 Hst Ha Hel0) as (-> & _).
      apply IH.
    - intros w0 k o w' IH Hs a el.
      destruct (settle_frame k o w0 w' Hs) as (-> & _). apply IH.
    - intros w0 h IH a el (el0 & Hel0 & _ & Hv)%fire_element.
      specialize (IH a el0 Hel0).
      destruct Hv as [->|[[Hlt Hl]|[Hgt Hq]]];
        [done|eapply ramp_up; eauto|eapply ramp_down; eauto]. }
  split; [exact Hramp|].
  destruct Hramp as (k & Hk & ->).
  split; [|now apply step_volume_le_1].
  clear -Hk. do 21 (destruct k as [|k]; [vm_compute; discriminate|]). lia.
Qed.

Lemma volumes_stay_on_the_ramp_witness :
  on_the_ramp (volume (first_element (step_volume 3))) ∧
  (0 <= volume (first_element (step_volume 3)) <= 1)%Q.
Proof.
  apply (volumes_stay_on_the_ramp sample_tracks warm_up warm O
           (first_element (step_volume 3))).
  - vm_compute. reflexivity.
  - vm_compute. reflexivity.
Defined.

Lemma fade_out_tick a f w el k :
  audios w !! a = Some el → volume el = step_volume k → (k ≤ 20)%nat →
  audios (run_callback (FadeOutTick a f) w) !! a
  = Some {| src := src el; volume := step_volume (k - 1);
            paused := paused el |}.
Proof.
  intros Hel Hv Hk. unfold run_callback. rewrite Hel, Hv.
  destruct (decide (k = 0%nat)) as [->|Hne].
  - change (JsNumber.gtb (step_volume 0) 0%Q) with false. cbv iota.
    assert (Ha : ∀ w', audios match f with
                              | Some h => clearInterval h w'
                              | None => w' end = audios w')
      by (intros w'; destruct f; reflexivity).
    rewrite Ha, Hel. destruct el as [s v p]. simpl in *.
    rewrite Hv. reflexivity.
  - destruct (quieter_table k) as (Hgt & Hq); [lia|].
    rewrite Hgt, Hq. unfold set_volume.
    assert (Hr : Qle_bool 0 (step_volume (k - 1))
                 && Qle_bool (step_volume (k - 1)) 1 = true).
    { clear -Hk. do 21 (destruct k as [|k]; [vm_compute; reflexivity|]). lia. }
    rewrite Hr. cbn [audios with_audios].
    now rewrite list_lookup_alter_eq, Hel.
Qed.

(** X5. From the ramp value number [k], [n] runs of the fade-out closure
    leave the element at ramp value number [k - n]: one step of 0.05 down
    per tick, and 0 from tick [k] on; source and paused flag are kept. *)
Theorem fade_out_ramp a f w el k n :
  audios w !! a = Some el → volume el = step_volume k → (k ≤ 20)%nat →
  audios (Nat.iter n (run_callback (FadeOutTick a f)) w) !! a
  = Some {| src := src el; volume := step_volume (k - n);
            paused := paused el |}.
Proof.
  intros Hel Hv Hk. induction n as [|n IH].
  - unfold Nat.iter. cbn [nat_rect]. rewrite Nat.sub_0_r, Hel.
    destruct el. simpl in *. now rewrite Hv.
  - rewrite Nat.iter_succ, (fade_out_tick a f _ _ (k - n)%nat IH);
      [|reflexivity|lia].
    cbn [src paused]. do 3 f_equal. lia.
Qed.

Lemma fade_out_ramp_witness :
  audios (Nat.iter 2 (run_callback (FadeOutTick O None)) warm) !! O
  = Some {| src := src (first_element (step_volume 3));
            volume := step_volume (3 - 2);
            paused := paused (first_element (step_volume 3)) |}.
Proof.
  apply (fade_out_ramp O None warm (first_element (step_volume 3)) 3 2).
  - vm_compute. reflexivity.
  - vm_compute. reflexivity.
  - lia.
Defined.

(** X6. On the ramp the two volume updates undo each other:
    [Number((v + 0.05).toFixed(2))] followed by
    [Number((v - 0.05).toFixed(2))] gives [v] back, and the other way
    round. *)
Theorem one_step_up_and_down k :
  (k < 20)%nat →
  louder (step_volume k) ≫= quieter = Some (step_volume k) ∧
  quieter (step_volume (S k)) ≫= louder = Some (step_volume (S k)).
Proof.
  intros Hk.
  destruct (louder_table k Hk) as (_ & Hl & _).
  destruct (quieter_table (S k)) as (_ & Hq); [lia|].
  rewrite Nat.sub_succ, Nat.sub_0_r in Hq.
  rewrite Hl, Hq. cbn. now rewrite Hq, Hl.
Qed.

Lemma one_step_up_and_down_witness :
  louder (step_volume 3) ≫= quieter = Some (step_volume 3) ∧
  quieter (step_volume 4) ≫= louder = Some (step_volume 4).
Proof.
  apply (one_step_up_and_down 3). lia.
Defined.

Lemma fade_out_tick_spares h a f w t :
  f ≠ Some h → timers w !! h = Some t →
  timers (run_callback (FadeOutTick a f) w) !! h = Some t.
Proof.
  intros Hf Ht. unfold run_callback.
  destruct (audios w !! a) as [el|]; [|exact Ht].
  destruct (JsNumber.gtb (volume el) 0%Q).
  - destruct (quieter (volume el)) as [v|]; [|exact Ht].
    destruct (set_volume_frame a v w) as (_ & _ & _ & _ & ->). exact Ht.
  - destruct f as [h'|]; [|exact Ht].
    cbn [clearInterval timers with_timers].
    rewrite list_lookup_alter_ne by congruence. exact Ht.
Qed.

(** X7. After [stop] on a reachable page, the fade-out interval is still
    active after any number of its own ticks: its closure clears the
    handle [fadeOut] captured by the render, never the interval just
    made. *)
Theorem fade_out_never_clears_itself tracks es w i st a el n :
  run tracks es (mount tracks) = Some w →
  hooks w !! i = Some st → audio st = Some a → audios w !! a = Some el →
  timers (Nat.iter n (run_callback (FadeOutTick a (fadeOut st))) (stop i w))
    !! length (timers w)
  = Some {| handler := FadeOutTick a (fadeOut st); due := now w + 100;
            period := Some 100; active := true |}.
Proof.
  intros Hrun Hst Ha Hel.
  destruct (reachable_handles tracks w (ex_intro _ es Hrun) i st Hst) as [_ Ho].
  destruct (stop_effect w i st a el Hst Ha Hel) as (_ & Htm & Hlen & _).
  assert (Hf : fadeOut st ≠ Some (length (timers w))).
  { intros Heq. specialize (Ho _ Heq). lia. }
  induction n as [|n IH].
  - unfold Nat.iter. cbn [nat_rect]. rewrite Htm, lookup_app_r by lia.
    now rewrite Hlen, Nat.sub_diag.
  - rewrite Nat.iter_succ. now apply fade_out_tick_spares.
Qed.

Lemma fade_out_never_clears_itself_witness :
  timers (Nat.iter 30 (run_callback (FadeOutTick O (fadeOut previewing)))
            (stop 0 warm))
    !! length (timers warm)
  = Some {| handler := FadeOutTick O (fadeOut previewing);
            due := now warm + 100; period := Some 100; active := true |}.
Proof.
  apply (fade_out_never_clears_itself sample_tracks warm_up warm O previewing
           O (first_element (step_volume 3)) 30).
  - vm_compute. reflexivity.
  - vm_compute. reflexivity.
  - reflexivity.
  - vm_compute. reflexivity.
Defined.

Lemma settle_hooks k o w w' j st' :
  settle k o w = Some w' → hooks w' !! j = Some st' →
  ∃ st, hooks w !! j = Some st ∧ audio st' = audio st ∧
        fadeIn st' = fadeIn st ∧ fadeOut st' = fadeOut st.
Proof.
  intros (_ & _ & p & _ & _ & _ & [[_ ->]|[_ ->]])%settle_frame; [eauto|].
  rewrite list_lookup_alter. destruct (decide (p_track p = j)) as [->|_]; [|eauto].
  destruct (hooks w !! j) as [st|]; [|done].
  intros [= <-]. exists st. cbn. done.
Qed.

Lemma fire_audios_length h w : length (audios (fire h w)) = length (audios w).
Proof.
  assert (Hcb : ∀ cb w0, length (audios (run_callback cb w0)) = length (audios w0)).
  { intros cb w0.
    assert (Hset : ∀ a v, length (audios (set_volume a v w0))
                          = length (audios w0)).
    { intros a v. unfold set_volume. destruct (_ && _); [|done].
      cbn. apply length_alter. }
    destruct cb as [a f|a f|a]; unfold run_callback; repeat case_match;
      rewrite ?Hset; try reflexivity; cbn; apply length_alter. }
  unfold fire. repeat case_match; rewrite ?Hcb; reflexivity.
Qed.

Lemma run_promises_match tracks es w :
  run tracks es (mount tracks) = Some w →
  promises_match w ∧ length (hooks w) = length tracks.
Proof.
  intros Hrun.
  apply (run_invariant tracks
         (λ w, promises_match w ∧ length (hooks w) = length tracks))
  with (es := es); [| | | | |exact Hrun].
- split; [split; [done|]|cbn; apply length_fmap].
  intros k p. cbn. now rewrite lookup_nil.
- intros w0 at_ms i t [[Hl Hp] Hh] _.
  destruct (play_cases (track t) i (with_now at_ms w0))
    as [->|(st & url & Hst & Ha & Hpv)]; [done|].
  destruct (play_effect _ i st (track t) url Hst Ha Hpv)
    as (Ha' & _ & Hp' & _ & _ & _ & Hh').
  assert (Hi : (i < length (hooks w0))%nat) by (eapply lookup_lt_Some; eauto).
  split; [split|].
  + rewrite Ha', Hp', !length_app. cbn in *. lia.
  + intros k p. rewrite Hp', Hh', length_insert.
    intros [Hin|[Hge Hnew]]%lookup_app_Some; [now apply Hp|].
    cbn [promises with_now] in Hge, Hnew.
    destruct (k - _)%nat eqn:Hd; [|done]. injection Hnew as <-.
    cbn in *. split; [lia|done].
  + rewrite Hh', length_insert. exact Hh.
- intros w0 at_ms i [[Hl Hp] Hh].
  destruct (stop_cases i (with_now at_ms w0))
    as [->|(st & a0 & el0 & Hst & Ha & Hel0)]; [done|].
  destruct (stop_effect _ i st a0 el0 Hst Ha Hel0)
    as (Ha' & _ & _ & Hh' & Hp').
  split; [split|].
  + now rewrite Ha', Hp'.
  + intros k p. rewrite Hp', Hh', length_insert. apply Hp.
  + rewrite Hh', length_insert. exact Hh.
- intros w0 k o w' [[Hl Hp] Hh] Hs.
  destruct (settle_frame k o w0 w' Hs) as (Ha' & _ & p0 & Hp0 & _ & Hp' & Hh').
  assert (Hlen : length (hooks w') = length (hooks w0)).
  { destruct Hh' as [[_ ->]|[_ ->]]; [done|apply length_alter]. }
  split; [split|].
  + now rewrite Ha', Hp', length_alter.
  + intros j p. rewrite Hp', Hlen, list_lookup_alter.
    destruct (decide (k = j)) as [->|_]; [|apply Hp].
    rewrite Hp0. intros [= <-]. cbn. now apply Hp.
  + now rewrite Hlen.
- intros w0 h [[Hl Hp] Hh].
  destruct (fire_frame h w0) as (_ & _ & Hh' & Hp').
  split; [split|].
  + now rewrite Hp', fire_audios_length.
  + intros k p. rewrite Hp', Hh'. apply Hp.
  + now rewrite Hh'.
Qed.

Lemma has_preview_inv t url :
  has_preview t = Some url → preview_url t = Some url ∧ url ≠ "".
Proof.
  unfold has_preview. destruct (preview_url t) as [u|]; [|done].
  destruct (JsString.truthy u) eqn:Htr; [|done].
  intros [= ->]. split; [done|]. now apply truthy_spec.
Qed.

Lemma run_own_previews tracks es w :
  run tracks es (mount tracks) = Some w → own_previews tracks w.
Proof.
  apply (run_invariant tracks (own_previews tracks)).
  - split_and!; [done| |].
    + intros k p el. cbn. now rewrite lookup_nil.
    + intros i st a. cbn. rewrite list_lookup_fmap.
      destruct (tracks !! i); [|done]. intros [= <-]. done.
  - intros w0 at_ms i t (Hl & Hsrc & Hheld) Ht.
    destruct (play_cases (track t) i (with_now at_ms w0))
      as [->|(st & url & Hst & Ha & Hpv)]; [done|].
    destruct (play_effect _ i st (track t) url Hst Ha Hpv)
      as (Ha' & _ & Hp' & _ & _ & _ & Hh').
    cbn [audios promises hooks with_now] in Ha', Hp', Hh', Hst.
    split_and!.
    + rewrite Ha', Hp', !length_app. cbn. lia.
    + intros k p el. rewrite Ha', Hp'.
      intros [Hp|[Hge Hp]]%lookup_app_Some [Hel|[Hge' Hel]]%lookup_app_Some.
      * eauto.
      * apply lookup_lt_Some in Hp. lia.
      * apply lookup_lt_Some in Hel. lia.
      * destruct (k - length (promises w0))%nat; [|done].
        destruct (k - length (audios w0))%nat; [|done].
        injection Hp as <-. injection Hel as <-. cbn. eauto.
    + intros j stj a. rewrite Hh', Hp'.
      destruct (decide (i = j)) as [->|Hne].
      * rewrite list_lookup_insert_eq by (eapply lookup_lt_Some; eauto).
        intros [= <-] [= <-]. rewrite <- Hl.
        eexists. split; [apply lookup_snoc_new|reflexivity].
      * rewrite list_lookup_insert_ne by done. intros Hj Haj.
        destruct (Hheld j stj a Hj Haj) as (p & Hp & Hpt).
        exists p. split; [|done]. now apply lookup_app_l_Some.
  - intros w0 at_ms i (Hl & Hsrc & Hheld).
    destruct (stop_cases i (with_now at_ms w0))
      as [->|(st & a0 & el0 & Hst & Ha & Hel0)]; [done|].
    destruct (stop_effect _ i st a0 el0 Hst Ha Hel0)
      as (Ha' & _ & _ & Hh' & Hp').
    cbn [audios promises hooks with_now] in Ha', Hp', Hh', Hst.
    split_and!.
    + now rewrite Ha', Hp'.
    + intros k p el. rewrite Ha', Hp'. apply Hsrc.
    + intros j stj a. rewrite Hh', Hp'.
      destruct (decide (i = j)) as [->|Hne].
      * rewrite list_lookup_insert_eq by (eapply lookup_lt_Some; eauto).
        intros [= <-]. done.
      * rewrite list_lookup_insert_ne by done. apply Hheld.
  - intros w0 k o w' (Hl & Hsrc & Hheld) Hs.
    destruct (settle_frame k o w0 w' Hs) as (Ha' & _ & p0 & Hp0 & _ & Hp' & _).
    assert (Hback : ∀ j p, promises w' !! j = Some p →
              ∃ q, promises w0 !! j = Some q ∧ p_track p = p_track q).
    { intros j p. rewrite Hp', list_lookup_alter.
      destruct (decide (k = j)) as [->|_]; [|eauto].
      rewrite Hp0. intros [= <-]. eauto. }
    assert (Hforth : ∀ j q, promises w0 !! j = Some q →
              ∃ p, promises w' !! j = Some p ∧ p_track p = p_track q).
    { intros j q Hq. rewrite Hp', list_lookup_alter.
      destruct (decide (k = j)) as [->|_]; [|eauto].
      rewrite Hq. eexists. split; [reflexivity|done]. }
    split_and!.
    + now rewrite Ha', Hp', length_alter.
    + intros j p el Hp. rewrite Ha'. intros Hel.
      destruct (Hback j p Hp) as (q & Hq & ->). eauto.
    + intros j stj a Hj Haj.
      destruct (settle_hooks k o w0 w' j stj Hs Hj) as (st & Hst & Hau & _).
      rewrite Hau in Haj.
      destruct (Hheld j st a Hst Haj) as (q & Hq & <-).
      destruct (Hforth a q Hq) as (p & Hp & Hpt). eauto.
  - intros w0 h (Hl & Hsrc & Hheld).
    destruct (fire_frame h w0) as (_ & _ & Hh' & Hp').
    split_and!.
    + now rewrite Hp', fire_audios_length.
    + intros k p el. rewrite Hp'.
      intros Hp (el0 & Hel0 & -> & _)%fire_element. eauto.
    + intros j stj a. rewrite Hh', Hp'. apply Hheld.
Qed.

(** X2. In every state the page can reach, every audio element was made
    by the [play] of one row, the row of its [play()] promise, and its
    source is the non-empty preview URL of that row's track; the element
    a row holds is one made from its own track's preview; and the row of
    a track without a preview holds no element and has called [play()] on
    none. *)
Theorem only_previews_are_played tracks es w :
  run tracks es (mount tracks) = Some w →
  (∀ a el, audios w !! a = Some el →
     ∃ p t, promises w !! a = Some p ∧ tracks !! p_track p = Some t ∧
            preview_url (track t) = Some (src el) ∧ src el ≠ "") ∧
  (∀ i st a, hooks w !! i = Some st → audio st = Some a →
     ∃ el t, audios w !! a = Some el ∧ tracks !! i = Some t ∧
             preview_url (track t) = Some (src el)) ∧
  (∀ i t, tracks !! i = Some t → has_preview (track t) = None →
     (∀ st, hooks w !! i = Some st → audio st = None) ∧
     (∀ k p, promises w !! k = Some p → p_track p ≠ i)).
Proof.
  intros Hrun.
  destruct (run_own_previews tracks es w Hrun) as (Hl & Hsrc & Hheld).
  assert (Hmade : ∀ k p, promises w !! k = Some p →
            ∃ el t, audios w !! k = Some el ∧ tracks !! p_track p = Some t ∧
                    has_preview (track t) = Some (src el)).
  { intros k p Hp.
    destruct (lookup_lt_is_Some_2 (audios w) k) as [el Hel];
      [rewrite <- Hl; eapply lookup_lt_Some; eauto|].
    destruct (Hsrc k p el Hp Hel) as (t & Ht & Hpv). eauto. }
  split_and!.
  - intros a el Hel.
    destruct (lookup_lt_is_Some_2 (promises w) a) as [p Hp];
      [rewrite Hl; eapply lookup_lt_Some; eauto|].
    destruct (Hsrc a p el Hp Hel) as (t & Ht & Hpv).
    apply has_preview_inv in Hpv as [? ?]. eauto 10.
  - intros i st a Hst Ha.
    destruct (Hheld i st a Hst Ha) as (p & Hp & <-).
    destruct (Hmade a p Hp) as (el & t & Hel & Ht & Hpv).
    apply has_preview_inv in Hpv as [? ?]. eauto 10.
  - intros i t Ht Hnone. split.
    + intros st Hst. destruct (audio st) as [a|] eqn:Ha; [|done].
      destruct (Hheld i st a Hst Ha) as (p & Hp & <-).
      destruct (Hmade a p Hp) as (el & t' & _ & Ht' & Hpv). congruence.
    + intros k p Hp <-.
      destruct (Hmade k p Hp) as (el & t' & _ & Ht' & Hpv). congruence.
Qed.

Lemma only_previews_are_played_witness :
  (∀ a el, audios warm !! a = Some el →
     ∃ p t, promises warm !! a = Some p ∧
            sample_tracks !! p_track p = Some t ∧
            preview_url (track t) = Some (src el) ∧ src el ≠ "") ∧
  (∀ i st a, hooks warm !! i = Some st → audio st = Some a →
     ∃ el t, audios warm !! a = Some el ∧ sample_tracks !! i = Some t ∧
             preview_url (track t) = Some (src el)) ∧
  (∀ i t, sample_tracks !! i = Some t → has_preview (track t) = None →
     (∀ st, hooks warm !! i = Some st → audio st = None) ∧
     (∀ k p, promises warm !! k = Some p → p_track p ≠ i)).
Proof.
  apply (only_previews_are_played sample_tracks warm_up warm).
  vm_compute. reflexivity.
Defined.

Lemma settled_snoc_pending ps p :
  p_outcome p = None → settled (ps ++ [p]) = settled ps.
Proof.
  intros Hp. unfold settled. rewrite filter_app, length_app.
  rewrite filter_cons_False, filter_nil; [simpl; lia|].
  rewrite Hp. intros [? ?]. done.
Qed.

Lemma settled_alter ps k p o :
  ps !! k = Some p → p_outcome p = None →
  settled (alter (λ q, {| p_audio := p_audio q; p_track := p_track q;
                          p_interactableNotified := p_interactableNotified q;
                          p_outcome := Some o |}) k ps)
  = S (settled ps).
Proof.
  unfold settled. set (f := λ q, {| p_audio := p_audio q; p_track := p_track q;
                          p_interactableNotified := p_interactableNotified q;
                          p_outcome := Some o |}).
  revert k. induction ps as [|q ps IH]; intros k Hk Hp; [done|].
  destruct k as [|k]; simpl in Hk.
  - injection Hk as ->. change (alter f 0%nat (p :: ps)) with (f p :: ps).
    rewrite filter_cons_True by (cbn; eauto).
    rewrite (filter_cons_False _ p) by (rewrite Hp; intros [? ?]; done).
    reflexivity.
  - change (alter f (S k) (q :: ps)) with (q :: alter f k ps).
    rewrite !filter_cons.
    destruct (decide (is_Some (p_outcome q))); cbn [length];
      rewrite (IH k Hk Hp); done.
Qed.

(** X9. In every state the page can reach, the number of toasts shown
    is at most the number of settled [play()] promises, which is at most
    the number of audio elements created. *)
Theorem at_most_one_toast_per_promise tracks es w :
  run tracks es (mount tracks) = Some w →
  (length (toasts w) ≤ settled (promises w))%nat ∧
  (settled (promises w) ≤ length (audios w))%nat.
Proof.
  intros Hrun. split.
  - apply (run_invariant tracks
             (λ w, (length (toasts w) ≤ settled (promises w))%nat))
      with (es := es); [| | | | |exact Hrun].
    + cbn. lia.
    + intros w0 at_ms i t IH _.
      destruct (play_cases (track t) i (with_now at_ms w0))
        as [->|(st & url & Hst & Ha & Hpv)]; [done|].
      destruct (play_effect _ i st (track t) url Hst Ha Hpv)
        as (_ & _ & -> & -> & _).
      now rewrite settled_snoc_pending.
    + intros w0 at_ms i IH.
      destruct (stop_frame i (with_now at_ms w0)) as [-> _].
      destruct (stop_cases i (with_now at_ms w0))
        as [->|(st & a0 & el0 & Hst & Ha & Hel0)]; [done|].
      destruct (stop_effect _ i st a0 el0 Hst Ha Hel0) as (_ & _ & _ & _ & ->).
      done.
    + intros w0 k o w' IH Hs.
      destruct (settle_frame k o w0 w' Hs) as (_ & _ & p0 & Hp0 & Ho & Hp' & _).
      rewrite Hp', (settled_alter _ _ p0) by done.
      assert (Ht : (length (toasts w') ≤ S (length (toasts w0)))%nat).
      { unfold settle in Hs. rewrite Hp0, Ho in Hs. injection Hs as <-.
        destruct o as [|error]; [unfold on_fulfilled|unfold on_rejected];
          repeat case_match; cbn; rewrite ?length_app; cbn; lia. }
      lia.
    + intros w0 h IH. now destruct (fire_frame h w0) as (-> & _ & _ & ->).
  - destruct (run_promises_match tracks es w Hrun) as [[<- _] _].
    unfold settled. apply length_filter.
Qed.

Lemma at_most_one_toast_per_promise_witness :
  match run sample_tracks sample_session (mount sample_tracks) with
  | Some w =>
      (length (toasts w) ≤ settled (promises w))%nat ∧
      (settled (promises w) ≤ length (audios w))%nat
  | None => False
  end.
Proof.
  destruct (run sample_tracks sample_session (mount sample_tracks))
    as [w|] eqn:Hrun; [|vm_compute in Hrun; discriminate].
  apply (at_most_one_toast_per_promise sample_tracks sample_session w Hrun).
Defined.

Lemma heralded_snoc seen ts x :
  heralded seen (ts ++ [x])
  = heralded seen ts && heralded (seen || instructed ts) [x].
Proof.
  revert seen. induction ts as [|t ts IH]; intros seen; simpl.
  - now rewrite orb_false_r.
  - destruct t; rewrite IH; cbn.
    + now rewrite orb_true_r.
    + apply andb_assoc.
    + done.
Qed.

Lemma instructed_snoc ts x :
  instructed (ts ++ [x])
  = instructed ts || match x with toast_plain _ => true | _ => false end.
Proof.
  unfold instructed. rewrite existsb_app. cbn. now rewrite orb_false_r.
Qed.

Lemma run_instruction_known tracks es w :
  run tracks es (mount tracks) = Some w → instruction_known w.
Proof.
  apply (run_invariant tracks instruction_known).
  - split_and!; [done|done|]. intros k p. cbn. now rewrite lookup_nil.
  - intros w0 at_ms i t (Hh & Hf & Hp) _.
    destruct (play_cases (track t) i (with_now at_ms w0))
      as [->|(st & url & Hst & Ha & Hpv)]; [done|].
    destruct (play_effect _ i st (track t) url Hst Ha Hpv)
      as (_ & _ & Hp' & Ht' & Hf' & _).
    unfold instruction_known. rewrite Ht', Hf', Hp'.
    split_and!; [done|done|].
    intros k p [Hin|[_ Hnew]]%lookup_app_Some; [now apply (Hp k)|].
    destruct (k - _)%nat; [|done]. injection Hnew as <-. cbn. exact Hf.
  - intros w0 at_ms i (Hh & Hf & Hp).
    destruct (stop_frame i (with_now at_ms w0)) as [Ht' Hf'].
    unfold instruction_known. rewrite Ht', Hf'.
    split_and!; [done|done|].
    destruct (stop_cases i (with_now at_ms w0))
      as [->|(st & a0 & el0 & Hst & Ha & Hel0)]; [done|].
    destruct (stop_effect _ i st a0 el0 Hst Ha Hel0) as (_ & _ & _ & _ & ->).
    done.
  - intros w0 k o w' (Hh & Hf & Hp) Hs.
    unfold settle in Hs.
    destruct (promises w0 !! k) as [p0|] eqn:Hp0; [|done].
    destruct (p_outcome p0); [done|]. injection Hs as <-.
    assert (Hps : ∀ j p,
              alter (λ q, {| p_audio := p_audio q; p_track := p_track q;
                             p_interactableNotified := p_interactableNotified q;
                             p_outcome := Some o |}) k (promises w0) !! j
              = Some p →
              p_interactableNotified p = true → instructed (toasts w0) = true).
    { intros j p. rewrite list_lookup_alter.
      destruct (decide (k = j)) as [->|_]; [|apply Hp].
      rewrite Hp0. intros [= <-]. cbn. now apply (Hp j). }
    specialize (Hp k p0 Hp0).
    destruct o as [|error].
    + unfold on_fulfilled.
      destruct (p_interactableNotified p0) eqn:Hc; cbn.
      * unfold instruction_known. cbn.
        rewrite heralded_snoc, instructed_snoc, Hh, (Hp eq_refl). cbn.
        split_and!; done.
      * unfold instruction_known. cbn. split_and!; [done|done|exact Hps].
    + unfold on_rejected.
      destruct (JsString.includes phrase_no_interaction _).
      * destruct (p_interactableNotified p0) eqn:Hc; cbn;
          unfold instruction_known; cbn; [split_and!; [done|done|exact Hps]|].
        rewrite heralded_snoc, instructed_snoc, Hh, orb_true_r. cbn.
        split_and!; done.
      * destruct (JsString.includes phrase_interrupted _); cbn;
          unfold instruction_known; cbn; [split_and!; [done|done|exact Hps]|].
        rewrite heralded_snoc, instructed_snoc, Hh, orb_false_r. cbn.
        split_and!; [done|done|exact Hps].
  - intros w0 h (Hh & Hf & Hp).
    destruct (fire_frame h w0) as (Ht' & Hf' & _ & Hp').
    unfold instruction_known. now rewrite Ht', Hf', Hp'.
Qed.

(** X10. In every run of the page, no success toast is shown before the
    instruction toast, and the global flag [interactableNotified] is set
    only after the instruction toast was shown. *)
Theorem success_toast_follows_instruction tracks es w :
  run tracks es (mount tracks) = Some w →
  heralded false (toasts w) = true ∧
  (interactableNotified w = true → instructed (toasts w) = true).
Proof.
  intros Hrun.
  destruct (run_instruction_known tracks es w Hrun) as (? & ? & _). done.
Qed.

Lemma success_toast_follows_instruction_witness :
  match run sample_tracks sample_session (mount sample_tracks) with
  | Some w =>
      heralded false (toasts w) = true ∧
      (interactableNotified w = true → instructed (toasts w) = true)
  | None => False
  end.
Proof.
  destruct (run sample_tracks sample_session (mount sample_tracks))
    as [w|] eqn:Hrun; [|vm_compute in Hrun; discriminate].
  apply (success_toast_follows_instruction sample_tracks sample_session w Hrun).
Defined.

Lemma fulfilled_for_same w w' i :
  promises w' = promises w → fulfilled_for w' i ↔ fulfilled_for w i.
Proof. unfold fulfilled_for. now intros ->. Qed.

Lemma run_set_when_fulfilled tracks es w :
  run tracks es (mount tracks) = Some w →
  set_when_fulfilled w ∧ promises_match w.
Proof.
  apply (run_invariant tracks (λ w, set_when_fulfilled w ∧ promises_match w)).
  - split; [|split; [done|intros k p; cbn; now rewrite lookup_nil]].
    intros i st. cbn. rewrite list_lookup_fmap.
    destruct (tracks !! i); [|done]. intros [= <-]. cbn. split; [done|].
    intros (k & p & Hk & _). cbn in Hk. now rewrite lookup_nil in Hk.
  - intros w0 at_ms i t [Hw [Hl Hm]] _.
    destruct (play_cases (track t) i (with_now at_ms w0))
      as [->|(st & url & Hst & Ha & Hpv)]; [done|].
    destruct (play_effect _ i st (track t) url Hst Ha Hpv)
      as (Ha' & _ & Hp' & _ & _ & _ & Hh').
    assert (Hi : (i < length (hooks w0))%nat) by (eapply lookup_lt_Some; eauto).
    assert (Hff : ∀ j, fulfilled_for (play (track t) i (with_now at_ms w0)) j
                       ↔ fulfilled_for w0 j).
    { intros j. unfold fulfilled_for. rewrite Hp'. split.
      - intros (k & p & [Hin|[_ Hnew]]%lookup_app_Some & Hj & Ho); [eauto|].
        destruct (k - _)%nat; [|done]. injection Hnew as <-. done.
      - intros (k & p & Hk & Hj & Ho). exists k, p.
        split; [|done]. apply lookup_app_l_Some. exact Hk. }
    split; [|split].
    + intros j stj. rewrite Hh', Hff.
      destruct (decide (i = j)) as [<-|Hne].
      * rewrite list_lookup_insert_eq by done. intros [= <-]. cbn.
        now apply Hw.
      * rewrite list_lookup_insert_ne by done. apply Hw.
    + rewrite Ha', Hp', !length_app. cbn in *. lia.
    + intros k p. rewrite Hp', Hh', length_insert.
      intros [Hin|[Hge Hnew]]%lookup_app_Some; [now apply Hm|].
      cbn [promises with_now] in Hge, Hnew.
      destruct (k - _)%nat eqn:Hd; [|done]. injection Hnew as <-.
      cbn in *. split; [lia|done].
  - intros w0 at_ms i [Hw [Hl Hm]].
    destruct (stop_cases i (with_now at_ms w0))
      as [->|(st & a0 & el0 & Hst & Ha & Hel0)]; [done|].
    destruct (stop_effect _ i st a0 el0 Hst Ha Hel0)
      as (Ha' & _ & _ & Hh' & Hp').
    assert (Hi : (i < length (hooks w0))%nat) by (eapply lookup_lt_Some; eauto).
    split; [|split].
    + intros j stj. rewrite Hh', (fulfilled_for_same _ _ _ Hp').
      destruct (decide (i = j)) as [<-|Hne].
      * rewrite list_lookup_insert_eq by done. intros [= <-]. cbn.
        now apply Hw.
      * rewrite list_lookup_insert_ne by done. apply Hw.
    + now rewrite Ha', Hp'.
    + intros k p. rewrite Hp', Hh', length_insert. apply Hm.
  - intros w0 k o w' [Hw [Hl Hm]] Hs.
    destruct (settle_frame k o w0 w' Hs)
      as (Ha' & _ & p0 & Hp0 & Ho0 & Hp' & Hh').
    assert (Hlen : length (hooks w') = length (hooks w0)).
    { destruct Hh' as [[_ ->]|[_ ->]]; [done|apply length_alter]. }
    destruct (Hm k p0 Hp0) as [_ Hk0].
    split; [|split].
    + intros j stj Hj. unfold fulfilled_for. rewrite Hp'.
      assert (Hold : ∀ st, hooks w0 !! j = Some st →
                (interactable st = true ↔ fulfilled_for w0 j)) by apply Hw.
      assert (Hnew : (∃ k' p, alter (λ q, {| p_audio := p_audio q;
                          p_track := p_track q;
                          p_interactableNotified := p_interactableNotified q;
                          p_outcome := Some o |}) k (promises w0) !! k' = Some p
                        ∧ p_track p = j ∧ p_outcome p = Some Fulfilled)
                     ↔ fulfilled_for w0 j ∨ (o = Fulfilled ∧ p_track p0 = j)).
      { split.
        - intros (k' & p & Hk' & Hpj & Hpo). rewrite list_lookup_alter in Hk'.
          destruct (decide (k = k')) as [<-|Hne].
          + rewrite Hp0 in Hk'. injection Hk' as <-. cbn in *.
            right. split; congruence.
          + left. exists k', p. done.
        - intros [(k' & p & Hk' & Hpj & Hpo)|[-> Hpj]].
          + exists k', p. split; [|done]. rewrite list_lookup_alter_ne; [done|].
            intros <-. congruence.
          + exists k. eexists. rewrite list_lookup_alter_eq, Hp0. cbn.
            split; [reflexivity|]. done. }
      rewrite Hnew.
      destruct Hh' as [[[error ->] Hh']|[-> Hh']]; rewrite Hh' in Hj.
      * rewrite (Hold stj Hj). split; [auto|].
        intros [Hf|[? _]]; [done|discriminate].
      * rewrite list_lookup_alter in Hj.
        destruct (decide (p_track p0 = j)) as [<-|Hne].
        -- destruct (hooks w0 !! p_track p0) as [st0|]; [|done].
           injection Hj as <-. cbn. split; [intros _; right; done|done].
        -- rewrite (Hold stj Hj). split; [auto|].
           intros [Hf|[_ Hpj]]; [done|congruence].
    + now rewrite Ha', Hp', length_alter.
    + intros j p. rewrite Hp', Hlen, list_lookup_alter.
      destruct (decide (k = j)) as [->|_]; [|apply Hm].
      rewrite Hp0. intros [= <-]. cbn. now apply Hm.
  - intros w0 h [Hw [Hl Hm]].
    destruct (fire_frame h w0) as (_ & _ & Hh' & Hp').
    split; [|split].
    + intros j stj. rewrite Hh', (fulfilled_for_same _ _ _ Hp'). apply Hw.
    + now rewrite Hp', fire_audios_length.
    + intros k p. rewrite Hp', Hh'. apply Hm.
Qed.

(** X11. In every state the page can reach, a component's
    [interactable] state is set exactly when one of its [play()] promises
    was fulfilled; it is never reset. *)
Theorem interactable_iff_fulfilled tracks es w i st :
  run tracks es (mount tracks) = Some w →
  hooks w !! i = Some st →
  (interactable st = true ↔ fulfilled_for w i).
Proof.
  intros Hrun. now apply (run_set_when_fulfilled tracks es w Hrun).
Qed.

Lemma interactable_iff_fulfilled_witness :
  interactable previewing = true ↔ fulfilled_for warm 0.
Proof.
  apply (interactable_iff_fulfilled sample_tracks warm_up warm O previewing).
  - vm_compute. reflexivity.
  - vm_compute. reflexivity.
Defined.

(* ===================================================================== *)
(** * The pause timeout *)
(* ===================================================================== *)

Lemma pause_delay_window k :
  (k ≤ 20)%nat →
  100 * Z.of_nat k - 1 <= JsNumber.to_long (pause_delay (step_volume k))
  <= 100 * Z.of_nat k.
Proof.
  intros Hk.
  do 21 (destruct k as [|k]; [vm_compute; split; discriminate|]). lia.
Qed.

(** X12. [stop] on an element at ramp value number [k] arms the pause
    timeout [100 * k] ms ahead or one millisecond before that, and [k]
    ticks of the fade-out interval bring the volume to 0. *)
Theorem stop_schedules_pause w i st a el k :
  hooks w !! i = Some st → audio st = Some a → audios w !! a = Some el →
  volume el = step_volume k → (k ≤ 20)%nat →
  ∃ d, timers (stop i w) !! S (length (timers w))
       = Some {| handler := PauseAudio a; due := now w + d;
                 period := None; active := true |} ∧
       100 * Z.of_nat k - 1 <= d <= 100 * Z.of_nat k ∧
       (volume <$> audios (Nat.iter k (run_callback (FadeOutTick a (fadeOut st)))
                             (stop i w)) !! a) = Some 0%Q.
Proof.
  intros Hst Ha Hel Hv Hk.
  destruct (stop_effect w i st a el Hst Ha Hel) as (Hau & Htm & Hlen & _).
  exists (JsNumber.to_long (pause_delay (volume el))).
  split; [|split].
  - rewrite Htm, lookup_app_r by lia.
    now rewrite Hlen, Nat.sub_succ_l, Nat.sub_diag.
  - rewrite Hv. now apply pause_delay_window.
  - pose proof (fade_out_ramp a (fadeOut st) (stop i w) el k k) as Hr.
    rewrite Hau in Hr. specialize (Hr Hel Hv Hk).
    rewrite Nat.sub_diag in Hr. now rewrite Hr.
Qed.

Lemma stop_schedules_pause_witness :
  ∃ d, timers (stop 0 warm) !! S (length (timers warm))
       = Some {| handler := PauseAudio O; due := now warm + d;
                 period := None; active := true |} ∧
       100 * Z.of_nat 3 - 1 <= d <= 100 * Z.of_nat 3 ∧
       (volume <$> audios (Nat.iter 3
                             (run_callback (FadeOutTick O (fadeOut previewing)))
                             (stop 0 warm)) !! O) = Some 0%Q.
Proof.
  apply (stop_schedules_pause warm O previewing O (first_element (step_volume 3)) 3).
  - vm_compute. reflexivity.
  - reflexivity.
  - vm_compute. reflexivity.
  - vm_compute. reflexivity.
  - lia.
Defined.

(* ===================================================================== *)
(** * More on the aggregates of the playlist *)
(* ===================================================================== *)

Lemma sum_list_insert_count (acc : list ArtistCount) i e :
  acc !! i = Some e →
  sum_list_with count (<[i := {| name := name e; count := count e + 1 |}]> acc)
  = S (sum_list_with count acc).
Proof.
  revert i. induction acc as [|x acc IH]; intros [|i] Hi; simplify_eq/=.
  - lia.
  - rewrite (IH i Hi). lia.
Qed.

Lemma visit_total acc seen a :
  tallied acc seen →
  sum_list_with count (visit acc a)
  = (sum_list_with count acc
     + length (filter (λ n, n ≠ "") [artist_name a]))%nat.
Proof.
  intros [Hnd Hent Hall]. unfold visit.
  destruct (list_find _ acc) as [[i e]|] eqn:Hfind.
  - apply list_find_Some in Hfind as (Hi & Hname & _).
    destruct (Hent e) as (Hne & _); [eapply list_elem_of_lookup_2; eauto|].
    rewrite (sum_list_insert_count acc i e Hi).
    rewrite filter_cons_True by congruence. cbn. lia.
  - destruct (JsString.truthy (artist_name a)) eqn:Ht.
    + apply truthy_spec in Ht. rewrite sum_list_with_app.
      rewrite filter_cons_True by done. cbn. lia.
    + assert (Hs : artist_name a = "").
      { destruct (decide (artist_name a = "")) as [|Hne]; [done|].
        apply truthy_spec in Hne. congruence. }
      rewrite filter_cons_False by (intros H; now apply H). cbn. lia.
Qed.

Lemma fold_visit_total l acc seen :
  tallied acc seen →
  sum_list_with count (fold_left visit l acc)
  = (sum_list_with count acc
     + length (filter (λ n, n ≠ "") (artist_name <$> l)))%nat.
Proof.
  revert acc seen. induction l as [|a l IH]; intros acc seen H.
  - cbn. lia.
  - cbn [fold_left]. rewrite fmap_cons.
    rewrite (IH _ (seen ++ [artist_name a])) by now apply visit_tallied.
    rewrite (visit_total acc seen a H).
    change (artist_name a :: (artist_name <$> l))
      with ([artist_name a] ++ (artist_name <$> l)).
    rewrite (filter_app _ [artist_name a]), length_app. lia.
Qed.

Lemma artists_total_from tracks acc seen :
  tallied acc seen →
  sum_list_with count
    (fold_left (λ acc t, fold_left visit (track_artists (track t)) acc)
       tracks acc)
  = (sum_list_with count acc
     + length (filter (λ n, n ≠ "") (credited_names tracks)))%nat.
Proof.
  revert acc seen. induction tracks as [|t l IH]; intros acc seen H.
  - cbn. lia.
  - cbn [fold_left].
    rewrite (IH _ (seen ++ (artist_name <$> track_artists (track t))))
      by now apply fold_visit_tallied.
    rewrite (fold_visit_total _ acc seen H).
    change (credited_names (t :: l))
      with ((artist_name <$> track_artists (track t)) ++ credited_names l).
    rewrite filter_app, length_app. lia.
Qed.

(** X13. The [artists] array has one entry per distinct non-empty
    credited name; each entry's count is the number of times that name is
    credited, at least 1; the counts add up to the number of credits
    with a non-empty name. *)
Theorem artists_count_every_credit tracks :
  NoDup (name <$> artists tracks) ∧
  (∀ n, n ∈ name <$> artists tracks ↔ n ≠ "" ∧ n ∈ credited_names tracks) ∧
  (∀ e, e ∈ artists tracks →
     (1 ≤ count e)%nat ∧ count e = appearances tracks (name e)) ∧
  sum_list_with count (artists tracks)
  = length (filter (λ n, n ≠ "") (credited_names tracks)).
Proof.
  pose proof (artists_tallied tracks) as [Hnd Hent Hall].
  split_and!.
  - exact Hnd.
  - intros n. split.
    + intros (e & -> & He)%list_elem_of_fmap.
      destruct (Hent e He) as (? & ? & _). done.
    + intros [Hne Hin]. auto.
  - intros e He. destruct (Hent e He) as (Hne & Hin & Hc).
    split; [|exact Hc].
    rewrite Hc. unfold credits.
    assert (Hf : name e ∈ filter (λ m, m = name e) (credited_names tracks))
      by (apply list_elem_of_filter; done).
    destruct (filter _ _); [by apply elem_of_nil in Hf|cbn; lia].
  - unfold artists.
    rewrite (artists_total_from tracks [] []); [done|].
    split; [constructor|by intros e He%elem_of_nil|by intros n Hn%elem_of_nil].
Qed.

(* ===================================================================== *)
(** * The progress bar *)
(* ===================================================================== *)


